(** * express-redis-server/server.js: the signal relay

    The program is one Express application: a JSON body parser, one route
    [POST /signal] whose handler republishes the parsed body on the Redis
    channel [trading-signals], a Redis client with an ['error'] listener, and
    a start-up function that connects the client and then opens port 3000.

    The embedding follows the file from top to bottom.  JavaScript values
    that reach the handler are JSON values; [async] functions are programs
    over two kinds of operations, the synchronous calls and the promises
    they [await]; the Node.js event loop is a step function on a process
    state that holds the suspended continuations.  A promise may stay
    pending for ever, and [JSON.stringify] may throw. *)

From Stdlib Require Import List String Ascii Bool ZArith Lia.
Import ListNotations.
Local Open Scope string_scope.
Local Open Scope Z_scope.
Set Warnings "-register-all".

(** ** JSON values and [JSON.stringify] *)

Module Json.

(** A JavaScript number as [JSON.stringify] sees it: the three non-finite
    values, or a finite value carried by the decimal text that
    [Number::toString] gives for it ([-0] and [0] both carry ["0"]). *)
Inductive JSNumber : Type :=
| NaN
| Infinity (negative : bool)
| Finite (text : string).

(** The values [JSON.parse] builds.  An object is the list of its own
    properties in enumeration order.  Strings hold their UTF-8 bytes, the
    form in which the client writes them to the socket; a lone surrogate,
    which [JSON.parse] builds from an escape, is held in the three bytes
    of its generalized UTF-8 form ([ED], [A0]..[BF], [80]..[BF]). *)
Inductive JSValue : Type :=
| JNull
| JBool (b : bool)
| JNumber (n : JSNumber)
| JString (s : string)
| JArray (items : list JSValue)
| JObject (props : list (string * JSValue)).

Definition hex_digit (n : N) : ascii :=
  match n with
  | 0 => "0" | 1 => "1" | 2 => "2" | 3 => "3" | 4 => "4" | 5 => "5"
  | 6 => "6" | 7 => "7" | 8 => "8" | 9 => "9" | 10 => "a" | 11 => "b"
  | 12 => "c" | 13 => "d" | 14 => "e" | _ => "f"
  end%N%char.

(** [UnicodeEscape] of a code unit below 256: [\u00] and two lowercase
    hexadecimal digits. *)
Definition unicode_escape (c : ascii) : string :=
  let n := N_of_ascii c in
  "\u00" ++ String (hex_digit (n / 16)) (String (hex_digit (n mod 16)) "").

(** One character of [QuoteJSONString]: the short escapes of the
    specification's table, [\u00XX] for the other control characters,
    every other character (every byte of a multi-byte sequence included)
    as it is. *)
Definition quote_char (c : ascii) : string :=
  let n := N_of_ascii c in
  if (n =? 8)%N then "\b"
  else if (n =? 9)%N then "\t"
  else if (n =? 10)%N then "\n"
  else if (n =? 12)%N then "\f"
  else if (n =? 13)%N then "\r"
  else if (n =? 34)%N then String "\" (String c "")
  else if (n =? 92)%N then String "\" (String c "")
  else if (n <? 32)%N then unicode_escape c
  else String c "".

(** The three bytes of a lone surrogate. *)
Definition is_surrogate (c1 c2 c3 : ascii) : bool :=
  ((N_of_ascii c1 =? 237)
   && (160 <=? N_of_ascii c2) && (N_of_ascii c2 <=? 191)
   && (128 <=? N_of_ascii c3) && (N_of_ascii c3 <=? 191))%N.

(** [UnicodeEscape] of the surrogate these bytes hold: [\ud] and three
    lowercase hexadecimal digits. *)
Definition surrogate_escape (c2 c3 : ascii) : string :=
  let n := ((N_of_ascii c2 - 128) * 64 + (N_of_ascii c3 - 128))%N in
  "\ud" ++ String (hex_digit (n / 256))
             (String (hex_digit ((n / 16) mod 16)) (String (hex_digit (n mod 16)) "")).

Fixpoint quote_chars (s : string) : string :=
  match s with
  | EmptyString => ""
  | String c rest =>
      match rest with
      | String c2 (String c3 rest') =>
          if is_surrogate c c2 c3 then surrogate_escape c2 c3 ++ quote_chars rest'
          else quote_char c ++ quote_chars rest
      | _ => quote_char c ++ quote_chars rest
      end
  end.

Definition dquote : string := String (ascii_of_N 34) "".

Definition QuoteJSONString (s : string) : string :=
  dquote ++ quote_chars s ++ dquote.

Definition join (sep : string) (parts : list string) : string :=
  String.concat sep parts.

Definition number_text (n : JSNumber) : string :=
  match n with
  | Finite text => text
  | NaN | Infinity _ => "null"
  end.

(** The text [JSON.stringify(value)] returns, with no replacer and no
    indentation, when it returns. *)
Fixpoint JSON_stringify (v : JSValue) : string :=
  match v with
  | JNull => "null"
  | JBool true => "true"
  | JBool false => "false"
  | JNumber n => number_text n
  | JString s => QuoteJSONString s
  | JArray items => "[" ++ join "," (map JSON_stringify items) ++ "]"
  | JObject props =>
      "{" ++ join ","
               (map (fun p => QuoteJSONString (fst p) ++ ":" ++ JSON_stringify (snd p))
                    props)
          ++ "}"
  end.

Definition empty_object : JSValue := JObject [].

(** How deep arrays and objects nest in a value. *)
Fixpoint depth (v : JSValue) : nat :=
  match v with
  | JArray items => S (list_max (map depth items))
  | JObject props => S (list_max (map (fun p => depth (snd p)) props))
  | _ => 0%nat
  end.

(** [JSON.stringify] recurses once per level of nesting, and the engine's
    stack is finite.  How many levels it takes depends on the engine and
    on the stack it was started with: the number is left unknown, and all
    that is used of it is that a value that nests one level is
    serialized. *)
Definition spare_stack : nat.
Proof. exact 5000%nat. Qed.

Definition stack_limit : nat := S spare_stack.

Definition serializable (v : JSValue) : bool := (depth v <=? stack_limit)%nat.

End Json.
Import Json.

(** ** Programs: synchronous calls, promises and exceptions *)

Module Js.

(** A thrown value: an [Error] object. *)
Record JSError : Type := mkError { error_name : string; error_message : string }.

(** The second argument of a [console.log] or [console.error] call. *)
Inductive LogArg : Type :=
| NoArg
| ValueArg (v : JSValue)
| ErrorArg (e : JSError).

(** Calls that return at once. *)
Inductive SyncOp : Type :=
| ConsoleLog (label : string) (arg : LogArg)
| ConsoleError (label : string) (arg : LogArg)
| ResStatusSend (status : Z) (body : string)   (* res.status(n).send(text) *)
| FinalHandler (status : Z).                   (* Express's own error reply *)

(** Calls that complete later, in another turn of the event loop. *)
Inductive AsyncOp : Type :=
| ClientPublish (channel message : string)
| ClientConnect
| AppListen (port : Z).

(** How such a call completes.  The program never reads the value a
    promise is fulfilled with, so a fulfilment carries none. *)
Inductive Settlement : Type :=
| Fulfilled
| Rejected (e : JSError).

(** The body of a function: it returns, throws, makes a synchronous call
    and goes on, or starts an asynchronous call and goes on when that
    call settles. *)
Inductive Prog (A : Type) : Type :=
| Ret (a : A)
| Throw (e : JSError)
| Sync (o : SyncOp) (k : Prog A)
| Async (o : AsyncOp) (k : Settlement -> Prog A).

Arguments Ret {A} a.
Arguments Throw {A} e.
Arguments Sync {A} o k.
Arguments Async {A} o k.

Fixpoint bind {A B : Type} (p : Prog A) (f : A -> Prog B) : Prog B :=
  match p with
  | Ret a => f a
  | Throw e => Throw e
  | Sync o k => Sync o (bind k f)
  | Async o k => Async o (fun s => bind (k s) f)
  end.

(** [try { p } catch (error) { h error }] *)
Fixpoint try_catch {A : Type} (p : Prog A) (h : JSError -> Prog A) : Prog A :=
  match p with
  | Ret a => Ret a
  | Throw e => h e
  | Sync o k => Sync o (try_catch k h)
  | Async o k => Async o (fun s => try_catch (k s) h)
  end.

Definition call (o : SyncOp) : Prog unit := Sync o (Ret tt).

(** The value of an expression whose evaluation may throw. *)
Definition eval {A : Type} (r : JSError + A) : Prog A :=
  match r with
  | inl e => Throw e
  | inr a => Ret a
  end.

(** What the engine throws when the stack is exhausted. *)
Definition stack_overflow : JSError :=
  mkError "RangeError" "Maximum call stack size exceeded".

(** The call [JSON.stringify(value)]: the text, or the engine's
    [RangeError] when the value nests deeper than the stack allows. *)
Definition JSON_stringify_call (v : JSValue) : JSError + string :=
  if serializable v then inr (JSON_stringify v) else inl stack_overflow.

(** [await promise]: go on when the promise is fulfilled, throw its reason
    when it is rejected. *)
Definition await (o : AsyncOp) : Prog unit :=
  Async o (fun s => match s with Fulfilled => Ret tt | Rejected e => Throw e end).

(** A call that takes a completion callback: the callback runs once the
    operation has succeeded; a failure is an ['error'] event that nobody
    listens to, which Node.js throws. *)
Definition with_callback (o : AsyncOp) (cb : Prog unit) : Prog unit :=
  Async o (fun s => match s with Fulfilled => cb | Rejected e => Throw e end).

End Js.
Import Js.

Declare Scope js_scope.
Delimit Scope js_scope with js.
Notation "p ;; q" := (bind p (fun _ => q))
  (at level 61, right associativity) : js_scope.
Notation "x <- p ;; q" := (bind p (fun x => q))
  (at level 61, p at next level, right associativity) : js_scope.

(** ** Express: the JSON body parser and the router

    [express.json()] and the router are the framework's code, not the
    program's.  They are modelled from the behaviour Express 4 and its
    body parser document, as far as the program depends on it: what
    [req.body] is when the handler runs, and what happens to a request
    whose body the parser refuses. *)

Module Express.

(** What reading the request's entity gives: a failure with the status the
    reader attaches to it (unsupported charset or encoding 415, entity too
    large 413, aborted request 400), or the text, together with what
    [JSON.parse] makes of that text ([None] when it throws). *)
Inductive Entity : Type :=
| Unreadable (status : Z)
| Text (text : string) (parsed : option JSValue).

Record Request : Type := mkRequest {
  req_method : string;       (* req.method *)
  req_path : string;         (* the path of req.url, without the query *)
  has_body : bool;           (* a Content-Length or Transfer-Encoding header *)
  is_json : bool;            (* Content-Type matches application/json *)
  entity : Entity
}.

(** A middleware's verdict: [next()] with [req.body] set, or [next(err)]
    with [err.status]. *)
Inductive Verdict : Type :=
| Next (body : JSValue)
| Fail (status : Z).

Definition is_blank (c : ascii) : bool :=
  let n := N_of_ascii c in
  ((n =? 32) || (n =? 9) || (n =? 10) || (n =? 13))%N.

(** The first character that is not a space, tab, line feed or carriage
    return. *)
Fixpoint firstchar (text : string) : option ascii :=
  match text with
  | EmptyString => None
  | String c rest => if is_blank c then firstchar rest else Some c
  end.

Definition opens_structure (c : option ascii) : bool :=
  match c with
  | Some c => (N_of_ascii c =? 123)%N || (N_of_ascii c =? 91)%N
  | None => false
  end.

(** The parser's [parse(body)], in its default strict mode: an empty text
    is the empty object; a text that does not start an object or an array
    is refused; the rest is [JSON.parse]'s.  Every refusal is a 400. *)
Definition parse (text : string) (parsed : option JSValue) : Verdict :=
  if (String.length text =? 0)%nat then Next empty_object
  else if negb (opens_structure (firstchar text)) then Fail 400
  else match parsed with
       | Some v => Next v
       | None => Fail 400
       end.

(** [express.json()]: requests without a body, and requests whose content
    type is not JSON, pass with [req.body = {}]; the others are read and
    parsed. *)
Definition json (req : Request) : Verdict :=
  if negb (has_body req) then Next empty_object
  else if negb (is_json req) then Next empty_object
  else match entity req with
       | Unreadable status => Fail status
       | Text text parsed => parse text parsed
       end.

Record Route : Type := mkRoute {
  route_method : string;
  route_path : string;
  route_handler : JSValue -> Prog unit
}.

(** An application: the body parser given to [app.use], and the routes in
    the order they were added. *)
Record App : Type := mkApp {
  body_parser : Request -> Verdict;
  routes : list Route
}.

Definition lower_char (c : ascii) : ascii :=
  let n := N_of_ascii c in
  if ((65 <=? n) && (n <=? 90))%N then ascii_of_N (n + 32) else c.

Fixpoint lower (s : string) : string :=
  match s with
  | EmptyString => EmptyString
  | String c rest => String (lower_char c) (lower rest)
  end.

(** Route paths match without regard to case, and with or without one
    trailing slash (the router's defaults). *)
Definition path_matches (route path : string) : bool :=
  (lower path =? lower route)%string || (lower path =? lower route ++ "/")%string.

Definition matches (r : Route) (req : Request) : bool :=
  (req_method req =? route_method r)%string && path_matches (route_path r) (req_path req).

(** The status of the reply Express writes for an error nobody handled:
    the error's own status when it is a 4xx or 5xx, else 500. *)
Definition error_status (status : Z) : Z :=
  if (400 <=? status) && (status <=? 599) then status else 500.

(** What the application does with a request: the body parser first; on
    its error the routes are skipped and Express replies; otherwise the
    first matching route's handler runs on the parsed body.  [None]: no
    route of the application matches, and the reply is the framework's. *)
Definition handle (app : App) (req : Request) : option (Prog unit) :=
  match body_parser app req with
  | Fail status => Some (call (FinalHandler (error_status status)))
  | Next body =>
      match find (fun r => matches r req) (routes app) with
      | Some r => Some (route_handler r body)
      | None => None
      end
  end.

End Express.
Import Express.

(** ** server.js *)

Module Server.

Local Open Scope js_scope.

(** [client.on('error', (err) => console.log('Redis Client Error', err))] *)
Definition on_client_error (err : JSError) : Prog unit :=
  call (ConsoleLog "Redis Client Error" (ErrorArg err)).

(** The handler of [app.post('/signal', ...)], applied to [req.body].  The
    argument of [client.publish] is evaluated inside the [try], before the
    call. *)
Definition signal_handler (body : JSValue) : Prog unit :=
  try_catch
    (let signal := body in
     call (ConsoleLog "Received signal:" (ValueArg signal)) ;;
     (message <- eval (JSON_stringify_call signal) ;;
      await (ClientPublish "trading-signals" message)) ;;
     call (ResStatusSend 200 "Signal received and published"))
    (fun error =>
     call (ConsoleError "Error publishing signal:" (ErrorArg error)) ;;
     call (ResStatusSend 500 "Error publishing signal")).

(** [startServer] *)
Definition startServer : Prog unit :=
  await ClientConnect ;;
  with_callback (AppListen 3000)
    (call (ConsoleLog "Server is running on port 3000" NoArg)).

(** [app.use(express.json())] and [app.post('/signal', ...)] *)
Definition app : App :=
  {| body_parser := Express.json;
     routes := [ {| route_method := "POST"; route_path := "/signal";
                    route_handler := signal_handler |} ] |}.

(** [const client = createClient()] with the listeners [client.on] adds. *)
Definition client_error_listeners : list (JSError -> Prog unit) :=
  [on_client_error].

End Server.
Import Server.

(** ** Running one function against its environment *)

Module Run.

Local Open Scope list_scope.

Inductive Event : Type :=
| Did (o : SyncOp)
| Called (o : AsyncOp)
| Settled (o : AsyncOp) (s : Settlement).

(** How far a function gets: it returns, it throws, or it waits for a
    call that never settles. *)
Inductive Completion (A : Type) : Type :=
| Normal (a : A)
| Abrupt (e : JSError)
| Pending (o : AsyncOp).
Arguments Normal {A} a.
Arguments Abrupt {A} e.
Arguments Pending {A} o.

(** The environment decides whether and how each asynchronous call
    settles ([None]: never); it may look at everything that happened
    before. *)
Definition Env : Type := list Event -> AsyncOp -> option Settlement.

(** The events of a run, oldest first, and how far the function gets. *)
Fixpoint run {A : Type} (env : Env) (past : list Event) (p : Prog A)
  : list Event * Completion A :=
  match p with
  | Ret a => (past, Normal a)
  | Throw e => (past, Abrupt e)
  | Sync o k => run env (past ++ [Did o]) k
  | Async o k =>
      let called := past ++ [Called o] in
      match env called o with
      | Some s => run env (called ++ [Settled o s]) (k s)
      | None => (called, Pending o)
      end
  end.

Definition trace {A : Type} (env : Env) (p : Prog A) : list Event :=
  fst (run env [] p).

Definition completion {A : Type} (env : Env) (p : Prog A) : Completion A :=
  snd (run env [] p).

(** The replies written to the HTTP response, by the handler or by
    Express. *)
Definition response_of (e : Event) : option Z :=
  match e with
  | Did (ResStatusSend status _) => Some status
  | Did (FinalHandler status) => Some status
  | _ => None
  end.

Fixpoint statuses (t : list Event) : list Z :=
  match t with
  | [] => []
  | e :: rest =>
      match response_of e with
      | Some st => st :: statuses rest
      | None => statuses rest
      end
  end.

(** The replies the handler itself sent: status and body. *)
Fixpoint sent (t : list Event) : list (Z * string) :=
  match t with
  | [] => []
  | Did (ResStatusSend status body) :: rest => (status, body) :: sent rest
  | _ :: rest => sent rest
  end.

(** The publish calls made: channel and message. *)
Fixpoint publishes (t : list Event) : list (string * string) :=
  match t with
  | [] => []
  | Called (ClientPublish channel message) :: rest => (channel, message) :: publishes rest
  | _ :: rest => publishes rest
  end.

(** The messages whose publish call the broker acknowledged. *)
Fixpoint delivered (t : list Event) : list (string * string) :=
  match t with
  | [] => []
  | Settled (ClientPublish channel message) Fulfilled :: rest =>
      (channel, message) :: delivered rest
  | _ :: rest => delivered rest
  end.

(** The network decides whether the command a publish call wrote reached
    the broker.  The program cannot see it: a call that was fulfilled did
    reach the broker, a call that was rejected or is pending may or may
    not have. *)
Definition Network : Type := list Event -> AsyncOp -> bool.

Definition acknowledged_next (t : list Event) : bool :=
  match t with
  | Settled _ Fulfilled :: _ => true
  | _ => false
  end.

(** The messages the broker received, and passed on to the subscribers of
    their channel, in a run whose events are [t] after [past]. *)
Fixpoint broker_received (net : Network) (past t : list Event) : list (string * string) :=
  match t with
  | [] => []
  | Called (ClientPublish channel message) :: rest =>
      let here := past ++ [Called (ClientPublish channel message)] in
      (if acknowledged_next rest || net here (ClientPublish channel message)
       then [(channel, message)] else [])
      ++ broker_received net here rest
  | e :: rest => broker_received net (past ++ [e]) rest
  end.

(** The errors written by [console.error]. *)
Fixpoint logged_errors (t : list Event) : list JSError :=
  match t with
  | [] => []
  | Did (ConsoleError _ (ErrorArg e)) :: rest => e :: logged_errors rest
  | _ :: rest => logged_errors rest
  end.

End Run.
Import Run.

(** ** The process: Node.js's event loop around the program *)

Module Node.

Local Open Scope list_scope.

(** Whose code is running: the module's top level with [startServer()],
    a listener of the client, or the handler of the n-th request. *)
Inductive TaskId : Type :=
| Main
| Listener
| Req (n : nat).

Definition same_task (a b : TaskId) : bool :=
  match a, b with
  | Main, Main => true
  | Listener, Listener => true
  | Req n, Req m => Nat.eqb n m
  | _, _ => false
  end.

(** Where a function stops within one turn of the loop. *)
Inductive Paused : Type :=
| Finished
| Uncaught (e : JSError)
| Suspended (o : AsyncOp) (k : Settlement -> Prog unit).

(** Run to completion, or to the next asynchronous call. *)
Fixpoint advance (p : Prog unit) : list Event * Paused :=
  match p with
  | Ret _ => ([], Finished)
  | Throw e => ([], Uncaught e)
  | Sync o k => let (es, r) := advance k in (Did o :: es, r)
  | Async o k => ([Called o], Suspended o k)
  end.

Definition Waiting : Type := TaskId * AsyncOp * (Settlement -> Prog unit).

Record Process : Type := mkProcess {
  exited : option JSError;      (* the uncaught error the process died of *)
  connected : bool;             (* client.connect() has been fulfilled *)
  listening : option Z;         (* the port on which connections are accepted *)
  error_listeners : list (JSError -> Prog unit);
  next_request : nat;
  waiting : list Waiting;       (* suspended functions and what they wait for *)
  log : list (TaskId * Event)
}.

Definition record (tid : TaskId) (es : list Event) (st : Process) : Process :=
  mkProcess (exited st) (connected st) (listening st) (error_listeners st)
            (next_request st) (waiting st) (log st ++ map (pair tid) es).

Definition exit (e : JSError) (st : Process) : Process :=
  mkProcess (Some e) (connected st) (listening st) (error_listeners st)
            (next_request st) (waiting st) (log st).

Definition suspend (w : Waiting) (st : Process) : Process :=
  mkProcess (exited st) (connected st) (listening st) (error_listeners st)
            (next_request st) (waiting st ++ [w]) (log st).

Definition resume (rest : list Waiting) (st : Process) : Process :=
  mkProcess (exited st) (connected st) (listening st) (error_listeners st)
            (next_request st) rest (log st).

Definition accept (st : Process) : Process :=
  mkProcess (exited st) (connected st) (listening st) (error_listeners st)
            (S (next_request st)) (waiting st) (log st).

(** What a fulfilled call changes outside the program: the client is
    connected, the server is bound to its port. *)
Definition fulfil (o : AsyncOp) (st : Process) : Process :=
  match o with
  | ClientConnect =>
      mkProcess (exited st) true (listening st) (error_listeners st)
                (next_request st) (waiting st) (log st)
  | AppListen port =>
      mkProcess (exited st) (connected st) (Some port) (error_listeners st)
                (next_request st) (waiting st) (log st)
  | ClientPublish _ _ => st
  end.

Definition settle (o : AsyncOp) (s : Settlement) (st : Process) : Process :=
  match s with
  | Fulfilled => fulfil o st
  | Rejected _ => st
  end.

(** One turn of a task.  An error that leaves an [async] function is an
    unhandled rejection, an error thrown from a callback an uncaught
    exception: the process dies of either. *)
Definition run_task (tid : TaskId) (p : Prog unit) (st : Process) : Process :=
  match exited st with
  | Some _ => st
  | None =>
      let (es, r) := advance p in
      let st' := record tid es st in
      match r with
      | Finished => st'
      | Uncaught e => exit e st'
      | Suspended o k => suspend (tid, o, k) st'
      end
  end.

(** The first function waiting on behalf of [tid], and the others. *)
Fixpoint take (tid : TaskId) (ws : list Waiting) : option (Waiting * list Waiting) :=
  match ws with
  | [] => None
  | w :: rest =>
      if same_task (fst (fst w)) tid then Some (w, rest)
      else match take tid rest with
           | Some (found, others) => Some (found, w :: others)
           | None => None
           end
  end.

(** What the outside world does to the process. *)
Inductive Input : Type :=
| Incoming (req : Request)                (* an HTTP request arrives *)
| Settle (tid : TaskId) (s : Settlement)  (* the call [tid] waits for completes *)
| ClientError (e : JSError).              (* the client emits 'error' *)

Definition emit_error (e : JSError) (st : Process) : Process :=
  match error_listeners st with
  | [] => exit e st   (* an 'error' event without a listener is thrown *)
  | ls => fold_left (fun acc l => run_task Listener (l e) acc) ls st
  end.

Definition step (st : Process) (i : Input) : Process :=
  match exited st with
  | Some _ => st
  | None =>
      match i with
      | Incoming req =>
          match listening st with
          | None => st
          | Some _ =>
              match handle app req with
              | None => st
              | Some p => run_task (Req (next_request st)) p (accept st)
              end
          end
      | Settle tid s =>
          match take tid (waiting st) with
          | None => st
          | Some ((_, o, k), rest) =>
              run_task tid (k s)
                (record tid [Settled o s] (settle o s (resume rest st)))
          end
      | ClientError e => emit_error e st
      end
  end.

(** The module's top level: the client has its listener, the routes are
    set, and [startServer()] is called. *)
Definition boot : Process :=
  run_task Main startServer
    (mkProcess None false None client_error_listeners 0 [] []).

Definition exec (inputs : list Input) : Process := fold_left step inputs boot.

End Node.
Import Node.

(** ** The vocabulary of the statements *)

Module Spec.

(** A [POST /signal] request: one the router gives to the route. *)
Definition post_signal (r : Request) : Prop :=
  req_method r = "POST" /\ path_matches "/signal" (req_path r) = true.

(** The broker is up: it acknowledges every message published to it. *)
Definition publish_succeeds (env : Env) : Prop :=
  forall past channel message, env past (ClientPublish channel message) = Some Fulfilled.

(** The body is valid JSON: [JSON.parse] makes [P] of its text. *)
Definition sends (r : Request) (P : JSValue) : Prop :=
  exists text, entity r = Text text (Some P).

(** The body is the JSON document [P] with the text [text], sent as JSON:
    a body is announced and the content type is application/json. *)
Definition carries (r : Request) (text : string) (P : JSValue) : Prop :=
  has_body r = true /\ is_json r = true /\ entity r = Text text (Some P).

(** The text is that of an object or an array: it starts, after blanks,
    with a brace or a bracket. *)
Definition structured (text : string) : Prop :=
  opens_structure (firstchar text) = true.


(** The body is sent as JSON, is not empty and is not parseable as JSON. *)
Definition malformed (r : Request) : Prop :=
  has_body r = true /\ is_json r = true /\
  exists text, entity r = Text text None /\ text <> "".

(** The body is absent, or is not presented as JSON. *)
Definition no_json_body (r : Request) : Prop :=
  has_body r = false \/ is_json r = false.

(** The asynchronous calls of the program use the fixed port and the
    fixed channel. *)
Definition fixed (e : Event) : Prop :=
  match e with
  | Called (AppListen port) => port = 3000
  | Called (ClientPublish channel _) => channel = "trading-signals"
  | _ => True
  end.

(** Sample environments and requests. *)
Definition broker_up : Env := fun _ _ => Some Fulfilled.

Definition connection_lost : JSError := mkError "Error" "Socket closed unexpectedly".

Definition broker_down : Env := fun _ _ => Some (Rejected connection_lost).

(** A broker that never answers. *)
Definition broker_silent : Env := fun _ _ => None.

(** A network on which every command reaches the broker. *)
Definition command_arrives : Network := fun _ _ => true.

Definition aapl_buy : JSValue :=
  JObject [("symbol", JString "AAPL"); ("action", JString "buy")].

Definition aapl_request : Request :=
  mkRequest "POST" "/signal" true true
    (Text ("{" ++ dquote ++ "symbol" ++ dquote ++ ":" ++ dquote ++ "AAPL" ++ dquote ++ ","
               ++ dquote ++ "action" ++ dquote ++ ":" ++ dquote ++ "buy" ++ dquote ++ "}")
          (Some aapl_buy)).

(** A body cut short, sent as application/json. *)
Definition truncated_request : Request :=
  mkRequest "POST" "/signal" true true (Text "{bad" None).


(** A request with no body at all. *)
Definition bodiless_request : Request :=
  mkRequest "POST" "/signal" false false (Text "" None).

(** The JSON document [42], sent as application/json. *)
Definition scalar_request : Request :=
  mkRequest "POST" "/signal" true true (Text "42" (Some (JNumber (Finite "42")))).

(** The signal of [aapl_request], sent as text/plain. *)
Definition mistyped_request : Request :=
  mkRequest "POST" "/signal" true false (entity aapl_request).

(** Arrays nested [n] levels around an empty one, and their text. *)
Fixpoint nest (n : nat) : JSValue :=
  match n with
  | O => JArray []
  | S m => JArray [nest m]
  end.

Fixpoint nest_text (n : nat) : string :=
  match n with
  | O => "[]"
  | S m => "[" ++ nest_text m ++ "]"
  end.

(** A document nested one level deeper than [JSON.stringify] can take. *)
Definition deep : JSValue := nest stack_limit.

Definition deep_request : Request :=
  mkRequest "POST" "/signal" true true (Text (nest_text stack_limit) (Some deep)).

End Spec.
Import Spec.

(** ** What the states of the process have in common *)

Module Reach.

Local Open Scope list_scope.

(** The three places where a function of the program waits. *)
Definition after_connect : Settlement -> Prog unit :=
  fun s =>
    bind (match s with Fulfilled => Ret tt | Rejected e => Throw e end)
         (fun _ => with_callback (AppListen 3000)
                     (call (ConsoleLog "Server is running on port 3000" NoArg))).

Definition after_listen : Settlement -> Prog unit :=
  fun s =>
    match s with
    | Fulfilled => call (ConsoleLog "Server is running on port 3000" NoArg)
    | Rejected e => Throw e
    end.

Definition after_publish : Settlement -> Prog unit :=
  fun s =>
    try_catch
      (bind (match s with Fulfilled => Ret tt | Rejected e => Throw e end)
            (fun _ => call (ResStatusSend 200 "Signal received and published")))
      (fun error =>
         bind (call (ConsoleError "Error publishing signal:" (ErrorArg error)))
              (fun _ => call (ResStatusSend 500 "Error publishing signal"))).

Definition connecting : Waiting := (Main, ClientConnect, after_connect).

(** What waits once the client is connected: the start-up for the port,
    handlers for their publish call. *)
Inductive later : Waiting -> Prop :=
| wait_listen : later (Main, AppListen 3000, after_listen)
| wait_publish (n : nat) (body : JSValue) :
    later (Req n, ClientPublish "trading-signals" (JSON_stringify body), after_publish).

Definition connect_fulfilled (x : TaskId * Event) : bool :=
  match snd x with
  | Settled ClientConnect Fulfilled => true
  | _ => false
  end.

Definition connect_rejected (x : TaskId * Event) : bool :=
  match snd x with
  | Settled ClientConnect (Rejected _) => true
  | _ => false
  end.

Definition listen_called (x : TaskId * Event) : bool :=
  match snd x with
  | Called (AppListen _) => true
  | _ => false
  end.

(** No [app.listen] call in the log before a fulfilled [client.connect];
    [c] tells whether one was fulfilled before the log starts. *)
Fixpoint ordered (c : bool) (l : list (TaskId * Event)) : bool :=
  match l with
  | [] => true
  | x :: rest =>
      (if listen_called x then c else true)
      && ordered (c || connect_fulfilled x) rest
  end.

(** The process is still connecting, has failed to connect, or has
    connected. *)
Inductive phase (st : Process) : Prop :=
| phase_connecting :
    exited st = None -> waiting st = [connecting] ->
    listening st = None -> connected st = false ->
    existsb listen_called (log st) = false ->
    existsb connect_rejected (log st) = false ->
    phase st
| phase_failed (e : JSError) :
    exited st = Some e -> listening st = None ->
    existsb listen_called (log st) = false ->
    (forall e', In (Main, Settled ClientConnect (Rejected e')) (log st) -> e' = e) ->
    phase st
| phase_connected :
    connected st = true ->
    existsb connect_rejected (log st) = false ->
    Forall later (waiting st) ->
    (forall port, listening st = Some port -> port = 3000) ->
    phase st.

Record Inv (st : Process) : Prop := mkInv {
  inv_listeners : error_listeners st = client_error_listeners;
  inv_connected : connected st = existsb connect_fulfilled (log st);
  inv_ordered : ordered false (log st) = true;
  inv_fixed : Forall (fun x => fixed (snd x)) (log st);
  inv_phase : phase st
}.

(** The states the process can be in. *)
Inductive reachable : Process -> Prop :=
| reach_boot : reachable boot
| reach_step (st : Process) (i : Input) : reachable st -> reachable (step st i).

End Reach.
Import Reach.

(** ** The life of the start-up and of each request *)

Module Life.

Local Open Scope list_scope.

Definition task_of (w : Waiting) : TaskId := fst (fst w).

(** The events of one task, in the order of the log. *)
Definition events_of (tid : TaskId) (l : list (TaskId * Event)) : list Event :=
  map snd (filter (fun x => same_task (fst x) tid) l).

(** No function waits on behalf of [tid]. *)
Definition idle (tid : TaskId) (ws : list Waiting) : Prop :=
  forall w, In w ws -> task_of w <> tid.

Definition publish_of (body : JSValue) : AsyncOp :=
  ClientPublish "trading-signals" (JSON_stringify body).

(** The handler's first turn, and its second turn by the settlement. *)
Definition received (body : JSValue) : list Event :=
  [Did (ConsoleLog "Received signal:" (ValueArg body)); Called (publish_of body)].

Definition outcome (s : Settlement) : list Event :=
  match s with
  | Fulfilled => [Did (ResStatusSend 200 "Signal received and published")]
  | Rejected e =>
      [Did (ConsoleError "Error publishing signal:" (ErrorArg e));
       Did (ResStatusSend 500 "Error publishing signal")]
  end.

(** The handler's only turn when [JSON.stringify] throws. *)
Definition overflowed (body : JSValue) : list Event :=
  [Did (ConsoleLog "Received signal:" (ValueArg body));
   Did (ConsoleError "Error publishing signal:" (ErrorArg stack_overflow));
   Did (ResStatusSend 500 "Error publishing signal")].

Definition publish_wait (n : nat) (body : JSValue) : Waiting :=
  (Req n, publish_of body, after_publish).

Definition listen_wait : Waiting := (Main, AppListen 3000, after_listen).

Definition running_line : Event :=
  Did (ConsoleLog "Server is running on port 3000" NoArg).

(** Where the n-th request stands. *)
Inductive stage (n : nat) (st : Process) : Prop :=
| not_arrived :
    (next_request st <= n)%nat ->
    events_of (Req n) (log st) = [] ->
    idle (Req n) (waiting st) ->
    stage n st
| refused (status : Z) :
    (n < next_request st)%nat ->
    events_of (Req n) (log st) = [Did (FinalHandler status)] ->
    idle (Req n) (waiting st) ->
    stage n st
| thrown (body : JSValue) :
    (n < next_request st)%nat ->
    serializable body = false ->
    events_of (Req n) (log st) = overflowed body ->
    idle (Req n) (waiting st) ->
    stage n st
| pending (body : JSValue) :
    (n < next_request st)%nat ->
    serializable body = true ->
    events_of (Req n) (log st) = received body ->
    In (publish_wait n body) (waiting st) ->
    stage n st
| settled (body : JSValue) (s : Settlement) :
    (n < next_request st)%nat ->
    serializable body = true ->
    events_of (Req n) (log st)
    = received body ++ Settled (publish_of body) s :: outcome s ->
    idle (Req n) (waiting st) ->
    stage n st.

(** Where the start-up stands. *)
Inductive startup (st : Process) : Prop :=
| connecting_up :
    exited st = None -> listening st = None -> connected st = false ->
    next_request st = 0%nat ->
    waiting st = [connecting] ->
    events_of Main (log st) = [Called ClientConnect] ->
    startup st
| connect_failed (e : JSError) :
    exited st = Some e -> listening st = None -> connected st = false ->
    next_request st = 0%nat ->
    waiting st = [] ->
    events_of Main (log st)
    = [Called ClientConnect; Settled ClientConnect (Rejected e)] ->
    startup st
| binding :
    exited st = None -> listening st = None -> connected st = true ->
    next_request st = 0%nat ->
    waiting st = [listen_wait] ->
    events_of Main (log st)
    = [Called ClientConnect; Settled ClientConnect Fulfilled; Called (AppListen 3000)] ->
    startup st
| bind_failed (e : JSError) :
    exited st = Some e -> listening st = None -> connected st = true ->
    next_request st = 0%nat ->
    waiting st = [] ->
    events_of Main (log st)
    = [Called ClientConnect; Settled ClientConnect Fulfilled; Called (AppListen 3000);
       Settled (AppListen 3000) (Rejected e)] ->
    startup st
| serving :
    exited st = None -> listening st = Some 3000 -> connected st = true ->
    idle Main (waiting st) -> idle Listener (waiting st) ->
    events_of Main (log st)
    = [Called ClientConnect; Settled ClientConnect Fulfilled; Called (AppListen 3000);
       Settled (AppListen 3000) Fulfilled; running_line] ->
    startup st.

Record Orderly (st : Process) : Prop := mkOrderly {
  same_listeners : error_listeners st = client_error_listeners;
  startup_stage : startup st;
  request_stage : forall n, stage n st;
  one_wait_each : NoDup (map task_of (waiting st))
}.

(** The process with the lines of the client's listener taken out of the
    log. *)
Definition not_listener (x : TaskId * Event) : bool := negb (same_task (fst x) Listener).

Definition without_listener (st : Process) : Process :=
  mkProcess (exited st) (connected st) (listening st) (error_listeners st)
            (next_request st) (waiting st) (filter not_listener (log st)).

Definition not_client_error (i : Input) : bool :=
  match i with
  | ClientError _ => false
  | _ => true
  end.

Definition is_connect_call (ev : Event) : bool :=
  match ev with
  | Called ClientConnect => true
  | _ => false
  end.

Definition is_listen_call (ev : Event) : bool :=
  match ev with
  | Called (AppListen _) => true
  | _ => false
  end.

(** The task that runs in a step. *)
Definition actor (st : Process) (i : Input) : TaskId :=
  match i with
  | Incoming _ => Req (next_request st)
  | Settle tid _ => tid
  | ClientError _ => Listener
  end.

(** A line written by the client's ['error'] listener. *)
Definition error_line (ev : Event) : Prop :=
  exists e, ev = Did (ConsoleLog "Redis Client Error" (ErrorArg e)).

(** Three requests in flight at once. *)
Definition busy : list Input :=
  [Settle Main Fulfilled; Settle Main Fulfilled;
   Incoming aapl_request; Incoming bodiless_request; Incoming truncated_request;
   ClientError connection_lost].

(** The start-up done, the server waits for requests. *)
Definition started : list Input := [Settle Main Fulfilled; Settle Main Fulfilled].

(** The steps that leave request [n] waiting: every one but the
    settlement of its own call. *)
Definition leaves_waiting (n : nat) (i : Input) : bool :=
  match i with
  | Settle tid _ => negb (same_task tid (Req n))
  | _ => true
  end.

(** The broker is never reached: [client.connect()] stays pending while
    the client reports its failed attempts. *)
Definition unreachable_broker (attempts : nat) : list Input :=
  repeat (ClientError connection_lost) attempts.

End Life.
Import Life.

(** * Properties *)

Local Open Scope list_scope.

Example stringify_sample :
  JSON_stringify
    (JObject [("symbol", JString "AAPL"); ("action", JString "buy");
              ("qty", JNumber (Finite "10")); ("tags", JArray [JNull; JBool true])])
  = ("{" ++ dquote ++ "symbol" ++ dquote ++ ":" ++ dquote ++ "AAPL" ++ dquote
        ++ "," ++ dquote ++ "action" ++ dquote ++ ":" ++ dquote ++ "buy" ++ dquote
        ++ "," ++ dquote ++ "qty" ++ dquote ++ ":10"
        ++ "," ++ dquote ++ "tags" ++ dquote ++ ":[null,true]}")%string.
Proof. reflexivity. Qed.

Example stringify_escapes :
  JSON_stringify (JString (String (ascii_of_N 10) (String (ascii_of_N 1) "\")))
  = (dquote ++ "\n\u0001\\" ++ dquote)%string.
Proof. reflexivity. Qed.

Example stringify_lone_surrogate :
  JSON_stringify
    (JString (String "a" (String (ascii_of_N 237) (String (ascii_of_N 160)
                                                     (String (ascii_of_N 128) "b")))))
  = (dquote ++ "a\ud800b" ++ dquote)%string.
Proof. reflexivity. Qed.

(** ** What [JSON.stringify] can take *)

Lemma shallow_serializable (v : JSValue) :
  (depth v <= 1)%nat -> serializable v = true.
Proof.
  intros H. unfold serializable, stack_limit. apply Nat.leb_le. lia.
Qed.

Lemma depth_nest (n : nat) : depth (nest n) = S n.
Proof. induction n as [|n IH]; simpl; [reflexivity|]. now rewrite IH, Nat.max_0_r. Qed.

Lemma deep_not_serializable : serializable deep = false.
Proof.
  unfold serializable, deep. rewrite depth_nest. apply Nat.leb_gt. lia.
Qed.

Lemma stringify_call_text (v : JSValue) :
  serializable v = true -> JSON_stringify_call v = inr (JSON_stringify v).
Proof. intros H. unfold JSON_stringify_call. now rewrite H. Qed.

Lemma stringify_call_throws (v : JSValue) :
  serializable v = false -> JSON_stringify_call v = inl stack_overflow.
Proof. intros H. unfold JSON_stringify_call. now rewrite H. Qed.

(** ** The route and the body parser *)

Lemma route_of_post_signal (r : Request) :
  post_signal r ->
  find (fun rt => matches rt r) (routes app)
  = Some (mkRoute "POST" "/signal" signal_handler).
Proof.
  intros [Hm Hp]. unfold app, matches. simpl.
  rewrite Hm, Hp. reflexivity.
Qed.

Lemma handle_parsed (r : Request) (P : JSValue) :
  post_signal r -> body_parser app r = Next P ->
  handle app r = Some (signal_handler P).
Proof.
  intros Hr Hb. unfold handle. rewrite Hb, (route_of_post_signal r Hr). reflexivity.
Qed.


Lemma json_no_body (r : Request) :
  no_json_body r -> Express.json r = Next empty_object.
Proof.
  intros [H | H]; unfold Express.json; rewrite H; simpl; [reflexivity|].
  destruct (has_body r); reflexivity.
Qed.

Lemma json_parsed (r : Request) (text : string) (P : JSValue) :
  has_body r = true -> is_json r = true ->
  entity r = Text text (Some P) ->
  opens_structure (firstchar text) = true ->
  Express.json r = Next P.
Proof.
  intros Hb Hj He Ho. unfold Express.json. rewrite Hb, Hj, He. simpl. unfold parse.
  destruct text as [|c rest]; [discriminate Ho|]. simpl String.length. simpl Nat.eqb.
  cbv iota. rewrite Ho. reflexivity.
Qed.

Lemma json_scalar (r : Request) (text : string) (parsed : option JSValue) :
  has_body r = true -> is_json r = true ->
  entity r = Text text parsed -> text <> ""%string ->
  opens_structure (firstchar text) = false ->
  Express.json r = Fail 400.
Proof.
  intros Hb Hj He Hne Ho. unfold Express.json. rewrite Hb, Hj, He. simpl. unfold parse.
  destruct text as [|c rest]; [congruence|]. simpl String.length. simpl Nat.eqb.
  cbv iota. now rewrite Ho.
Qed.

Lemma json_malformed (r : Request) :
  malformed r -> Express.json r = Fail 400.
Proof.
  intros (Hb & Hj & text & He & Hne).
  unfold Express.json. rewrite Hb, Hj, He. simpl. unfold parse.
  destruct text as [|c rest]; [congruence|]. simpl.
  destruct (opens_structure _); reflexivity.
Qed.

(** ** One run of the handler *)

(** The handler's run, whatever the environment.  When [JSON.stringify]
    throws: the log line, the error and the 500 reply, with no publish
    call.  Otherwise: the log line and the publish call, and then, if the
    call settles, its settlement and the reply that settlement decides. *)
Lemma handler_run (env : Env) (body : JSValue) :
  run env [] (signal_handler body)
  = if serializable body then
      match env (received body) (publish_of body) with
      | None => (received body, Pending (publish_of body))
      | Some s =>
          (received body ++ Settled (publish_of body) s :: outcome s, Normal tt)
      end
    else (overflowed body, Normal tt).
Proof.
  unfold signal_handler, JSON_stringify_call.
  destruct (serializable body); simpl; [|reflexivity].
  unfold received, publish_of.
  destruct (env _ _) as [[|e]|]; reflexivity.
Qed.

Lemma handler_turn (body : JSValue) :
  advance (signal_handler body)
  = if serializable body
    then (received body, Suspended (publish_of body) after_publish)
    else (overflowed body, Finished).
Proof.
  unfold signal_handler, JSON_stringify_call.
  destruct (serializable body); reflexivity.
Qed.

(** C1, as stated, fails: not every valid JSON payload sent to
    [POST /signal] is published.  The document [42] is refused by the
    body parser, which takes objects and arrays only: the reply is 400 and
    nothing is published.  A signal sent as text/plain is not read: the
    reply is 200, but what is published is ["{}"], not the signal.  A
    document nested deeper than [JSON.stringify] can take is answered 500
    without a publish call.  In all three the broker takes every message. *)
Lemma valid_json_not_always_published :
  (post_signal scalar_request /\
   sends scalar_request (JNumber (Finite "42")) /\
   publish_succeeds broker_up /\
   option_map (fun p => (statuses (trace broker_up p), publishes (trace broker_up p)))
              (handle app scalar_request)
   = Some ([400], [])) /\
  (post_signal mistyped_request /\
   sends mistyped_request aapl_buy /\
   option_map (fun p => (statuses (trace broker_up p), publishes (trace broker_up p)))
              (handle app mistyped_request)
   = Some ([200], [("trading-signals", "{}")]) /\
   JSON_stringify aapl_buy <> "{}"%string) /\
  (post_signal deep_request /\
   sends deep_request deep /\
   handle app deep_request = Some (signal_handler deep) /\
   statuses (trace broker_up (signal_handler deep)) = [500] /\
   publishes (trace broker_up (signal_handler deep)) = []).
Proof.
  split; [|split].
  - split; [split; reflexivity|]. split; [eexists; reflexivity|].
    split; [intros past channel message; reflexivity | reflexivity].
  - split; [split; reflexivity|]. split; [eexists; reflexivity|].
    split; [reflexivity | discriminate].
  - split; [split; reflexivity|]. split; [eexists; reflexivity|].
    split.
    + apply handle_parsed; [split; reflexivity|].
      apply (json_parsed deep_request (nest_text stack_limit) deep); reflexivity.
    + unfold trace. rewrite handler_run, deep_not_serializable. split; reflexivity.
Qed.

(** C1, amended: for every JSON object or array [P] that a [POST /signal]
    request carries as its body, sent as application/json and read by the
    body parser, and that [JSON.stringify] can serialize, when the broker
    takes what is published, the request is answered with status 200 and
    the body ["Signal received and published"], and exactly one publish
    call is made: to the channel [trading-signals], with
    [JSON.stringify(P)] as its message. *)
Theorem json_signal_published_on_success
        (env : Env) (r : Request) (text : string) (P : JSValue) :
  post_signal r ->
  carries r text P ->
  structured text ->
  serializable P = true ->
  publish_succeeds env ->
  exists p,
    handle app r = Some p /\
    completion env p = Normal tt /\
    statuses (trace env p) = [200] /\
    sent (trace env p) = [(200, "Signal received and published")] /\
    publishes (trace env p) = [("trading-signals", JSON_stringify P)] /\
    delivered (trace env p) = [("trading-signals", JSON_stringify P)].
Proof.
  intros Hr (Hb & Hj & He) Ho Hs Hup. exists (signal_handler P). split.
  - apply handle_parsed; [exact Hr|]. exact (json_parsed r text P Hb Hj He Ho).
  - unfold completion, trace. rewrite handler_run, Hs.
    unfold publish_of. rewrite Hup. simpl. repeat split.
Qed.

Lemma json_signal_published_on_success_witness :
  exists p,
    handle app aapl_request = Some p /\
    completion broker_up p = Normal tt /\
    statuses (trace broker_up p) = [200] /\
    sent (trace broker_up p) = [(200, "Signal received and published")] /\
    publishes (trace broker_up p) = [("trading-signals", JSON_stringify aapl_buy)] /\
    delivered (trace broker_up p) = [("trading-signals", JSON_stringify aapl_buy)].
Proof.
  apply (json_signal_published_on_success broker_up aapl_request
           ("{" ++ dquote ++ "symbol" ++ dquote ++ ":" ++ dquote ++ "AAPL" ++ dquote ++ ","
                ++ dquote ++ "action" ++ dquote ++ ":" ++ dquote ++ "buy" ++ dquote ++ "}")
           aapl_buy).
  - split; reflexivity.
  - repeat split.
  - reflexivity.
  - reflexivity.
  - intros past channel message. reflexivity.
Defined.

(** What the body parser makes of a request, case by case. *)
Lemma parsed_body (r : Request) :
  (no_json_body r -> body_parser app r = Next empty_object) /\
  (forall text P, carries r text P -> structured text -> body_parser app r = Next P) /\
  (forall text parsed,
      has_body r = true -> is_json r = true -> entity r = Text text parsed ->
      text <> ""%string -> ~ structured text -> body_parser app r = Fail 400) /\
  (malformed r -> body_parser app r = Fail 400).
Proof.
  split; [apply json_no_body|]. split; [|split; [|apply json_malformed]].
  - intros text P (Hb & Hj & He) Ho. exact (json_parsed r text P Hb Hj He Ho).
  - intros text parsed Hb Hj He Hne Ho.
    apply (json_scalar r text parsed Hb Hj He Hne).
    unfold structured in Ho. now destruct (opens_structure _).
Qed.

(** C4, as stated, fails: a signal sent as text/plain is handled, and the
    string published is ["{}"], which is not the serialization of the
    signal received in the body. *)
Lemma mistyped_signal_is_replaced :
  post_signal mistyped_request /\
  sends mistyped_request aapl_buy /\
  handle app mistyped_request = Some (signal_handler empty_object) /\
  publishes (trace broker_up (signal_handler empty_object)) = [("trading-signals", "{}")] /\
  JSON_stringify aapl_buy <> "{}"%string.
Proof.
  split; [split; reflexivity|]. split; [eexists; reflexivity|].
  split; [reflexivity|]. split; [reflexivity | discriminate].
Qed.

(** C4, amended: for every request handled, what is published is decided
    by [req.body], the product of the body parser: when the parser
    refuses the request nothing is published; otherwise the one string
    published is [JSON.stringify(req.body)], unchanged, on
    [trading-signals], and nothing is published when [JSON.stringify]
    throws.  [req.body] is the document of a body sent as JSON, and the
    empty object for a request without a body or whose body is not sent as
    JSON. *)
Theorem published_is_serialized_parsed_body (env : Env) (r : Request) (p : Prog unit) :
  handle app r = Some p ->
  match body_parser app r with
  | Fail _ => publishes (trace env p) = []
  | Next body =>
      publishes (trace env p)
      = (if serializable body then [("trading-signals", JSON_stringify body)] else []) /\
      (forall channel message,
          In (channel, message) (delivered (trace env p)) ->
          channel = "trading-signals"%string /\ message = JSON_stringify body)
  end /\
  (no_json_body r -> body_parser app r = Next empty_object) /\
  (forall text P, carries r text P -> structured text -> body_parser app r = Next P).
Proof.
  intros Hh. split; [|split; apply (parsed_body r)].
  revert Hh. unfold handle. destruct (body_parser app r) as [P | status] eqn:Hb.
  - destruct (find _ _) as [rt|] eqn:Hf; [|discriminate].
    intros [= <-].
    assert (route_handler rt = signal_handler) as ->.
    { simpl in Hf. destruct (matches _ r); [|discriminate].
      injection Hf as <-. reflexivity. }
    unfold trace. rewrite handler_run.
    destruct (serializable P).
    + destruct (env _ _) as [[|e]|]; simpl; (split; [reflexivity|]);
        intros channel message H; try (now destruct H).
      destruct H as [[= <- <-] | []]. split; reflexivity.
    + split; [reflexivity|]. intros channel message [].
  - intros [= <-]. reflexivity.
Qed.

Lemma published_is_serialized_parsed_body_witness :
  match body_parser app aapl_request with
  | Fail _ => publishes (trace broker_up (signal_handler aapl_buy)) = []
  | Next body =>
      publishes (trace broker_up (signal_handler aapl_buy))
      = (if serializable body then [("trading-signals", JSON_stringify body)] else []) /\
      (forall channel message,
          In (channel, message) (delivered (trace broker_up (signal_handler aapl_buy))) ->
          channel = "trading-signals"%string /\ message = JSON_stringify body)
  end /\
  (no_json_body aapl_request -> body_parser app aapl_request = Next empty_object) /\
  (forall text P, carries aapl_request text P -> structured text ->
                  body_parser app aapl_request = Next P).
Proof.
  apply (published_is_serialized_parsed_body broker_up aapl_request (signal_handler aapl_buy)).
  reflexivity.
Defined.

(** What the broker can have received of a run of the handler. *)
Lemma broker_received_cases (net : Network) (env : Env) (body : JSValue) :
  broker_received net [] (trace env (signal_handler body)) = []
  \/ broker_received net [] (trace env (signal_handler body))
     = [("trading-signals", JSON_stringify body)].
Proof.
  unfold trace. rewrite handler_run.
  destruct (serializable body); [|left; reflexivity].
  destruct (env _ _) as [[|e]|]; simpl.
  - right. reflexivity.
  - destruct (net _ _); [right | left]; reflexivity.
  - destruct (net _ _); [right | left]; reflexivity.
Qed.

(** C5, as stated, fails: the connection is lost after the command has
    reached the broker.  The publish call is rejected and the reply is
    500, yet the broker has received the message, which it delivers to the
    subscribers. *)
Lemma rejected_publish_may_be_delivered :
  In (Settled (ClientPublish "trading-signals" (JSON_stringify aapl_buy))
              (Rejected connection_lost))
     (trace broker_down (signal_handler aapl_buy)) /\
  statuses (trace broker_down (signal_handler aapl_buy)) = [500] /\
  broker_received command_arrives [] (trace broker_down (signal_handler aapl_buy))
  = [("trading-signals", JSON_stringify aapl_buy)] /\
  broker_received command_arrives [] (trace broker_down (signal_handler aapl_buy)) <> [].
Proof.
  split; [right; right; left; reflexivity|].
  split; [reflexivity|]. split; [reflexivity | discriminate].
Qed.

(** C5, amended: when the publish call of a request is rejected, the reply
    is status 500 with the body ["Error publishing signal"], the error the
    call was rejected with is written by [console.error], no
    acknowledgement was received, and the publish call was made once only,
    so that the broker has received the message at most once.  Whether it
    has received it is not decided by the rejection. *)
Theorem rejected_publish_is_500 (env : Env) (body : JSValue)
        (channel message : string) (e : JSError) :
  In (Settled (ClientPublish channel message) (Rejected e))
     (trace env (signal_handler body)) ->
  completion env (signal_handler body) = Normal tt /\
  statuses (trace env (signal_handler body)) = [500] /\
  sent (trace env (signal_handler body)) = [(500, "Error publishing signal")] /\
  logged_errors (trace env (signal_handler body)) = [e] /\
  delivered (trace env (signal_handler body)) = [] /\
  publishes (trace env (signal_handler body)) = [(channel, message)] /\
  (channel, message) = ("trading-signals"%string, JSON_stringify body) /\
  (forall net : Network,
      broker_received net [] (trace env (signal_handler body)) = [] \/
      broker_received net [] (trace env (signal_handler body)) = [(channel, message)]).
Proof.
  intros H.
  assert (G : (channel, message) = ("trading-signals"%string, JSON_stringify body) /\
              completion env (signal_handler body) = Normal tt /\
              statuses (trace env (signal_handler body)) = [500] /\
              sent (trace env (signal_handler body)) = [(500, "Error publishing signal")] /\
              logged_errors (trace env (signal_handler body)) = [e] /\
              delivered (trace env (signal_handler body)) = [] /\
              publishes (trace env (signal_handler body)) = [(channel, message)]).
  { revert H. unfold completion, trace. rewrite handler_run.
    destruct (serializable body).
    - destruct (env _ _) as [[|e']|]; simpl; intros H.
      + repeat (destruct H as [H | H]; [discriminate H|]). destruct H.
      + destruct H as [H | [H | [H | [H | [H | []]]]]]; try discriminate H.
        injection H as <- <- <-. repeat split; reflexivity.
      + repeat (destruct H as [H | H]; [discriminate H|]). destruct H.
    - simpl. intros H.
      repeat (destruct H as [H | H]; [discriminate H|]). destruct H. }
  destruct G as (Hcm & Hc & Hst & Hse & Hl & Hd & Hp).
  repeat (split; [assumption|]).
  intros net. rewrite Hcm. apply broker_received_cases.
Qed.

Lemma rejected_publish_is_500_witness :
  completion broker_down (signal_handler aapl_buy) = Normal tt /\
  statuses (trace broker_down (signal_handler aapl_buy)) = [500] /\
  sent (trace broker_down (signal_handler aapl_buy)) = [(500, "Error publishing signal")] /\
  logged_errors (trace broker_down (signal_handler aapl_buy)) = [connection_lost] /\
  delivered (trace broker_down (signal_handler aapl_buy)) = [] /\
  publishes (trace broker_down (signal_handler aapl_buy))
  = [("trading-signals"%string, JSON_stringify aapl_buy)] /\
  ("trading-signals"%string, JSON_stringify aapl_buy)
  = ("trading-signals"%string, JSON_stringify aapl_buy) /\
  (forall net : Network,
      broker_received net [] (trace broker_down (signal_handler aapl_buy)) = [] \/
      broker_received net [] (trace broker_down (signal_handler aapl_buy))
      = [("trading-signals"%string, JSON_stringify aapl_buy)]).
Proof.
  apply (rejected_publish_is_500 broker_down aapl_buy
           "trading-signals" (JSON_stringify aapl_buy) connection_lost).
  right. right. left. reflexivity.
Defined.

(** Where a reply can stand in a run. *)
Ltac reply_position H pre :=
  repeat (destruct pre as [|? pre]; simpl in H;
          [try discriminate H
          |injection H as ? H; try discriminate]);
  try (destruct pre; discriminate H).

(** C6, as stated, fails: for a body that [JSON.stringify] cannot
    serialize the handler sends its response, the 500, with no publish
    call made and nothing awaited. *)
Lemma reply_without_publish :
  handle app deep_request = Some (signal_handler deep) /\
  trace broker_up (signal_handler deep)
  = [Did (ConsoleLog "Received signal:" (ValueArg deep));
     Did (ConsoleError "Error publishing signal:" (ErrorArg stack_overflow));
     Did (ResStatusSend 500 "Error publishing signal")] /\
  publishes (trace broker_up (signal_handler deep)) = [] /\
  sent (trace broker_up (signal_handler deep)) = [(500, "Error publishing signal")].
Proof.
  split.
  - apply handle_parsed; [split; reflexivity|].
    apply (json_parsed deep_request (nest_text stack_limit) deep); reflexivity.
  - unfold trace. rewrite handler_run, deep_not_serializable. repeat split.
Qed.

(** C6, amended: a request is handled in this order: the body parser gives
    the parsed body, the handler logs it and hands its serialization to
    the publish call, the call settles, and only then the reply is
    written: 200 after a fulfilled call, 500 after a rejected one, none
    while the call is pending.  The one reply written without a publish
    call is the 500 for a body that [JSON.stringify] cannot serialize.
    When the parser refuses the body, none of these steps happens.  A 200
    reply is never written before the publish call was fulfilled. *)
Theorem handling_steps_in_order (env : Env) (r : Request) (p : Prog unit) :
  handle app r = Some p ->
  ((exists status,
       body_parser app r = Fail status /\
       trace env p = [Did (FinalHandler (error_status status))]) \/
   (exists P,
       body_parser app r = Next P /\
       ((serializable P = false /\
         trace env p
         = [Did (ConsoleLog "Received signal:" (ValueArg P));
            Did (ConsoleError "Error publishing signal:" (ErrorArg stack_overflow));
            Did (ResStatusSend 500 "Error publishing signal")]) \/
        (serializable P = true /\
         completion env p = Pending (ClientPublish "trading-signals" (JSON_stringify P)) /\
         trace env p
         = [Did (ConsoleLog "Received signal:" (ValueArg P));
            Called (ClientPublish "trading-signals" (JSON_stringify P))]) \/
        (serializable P = true /\
         exists s reply,
           trace env p
           = [Did (ConsoleLog "Received signal:" (ValueArg P));
              Called (ClientPublish "trading-signals" (JSON_stringify P));
              Settled (ClientPublish "trading-signals" (JSON_stringify P)) s] ++ reply /\
           match s with
           | Fulfilled => reply = [Did (ResStatusSend 200 "Signal received and published")]
           | Rejected e =>
               reply = [Did (ConsoleError "Error publishing signal:" (ErrorArg e));
                        Did (ResStatusSend 500 "Error publishing signal")]
           end)))) /\
  (forall pre text post,
      trace env p = pre ++ Did (ResStatusSend 200 text) :: post ->
      exists P,
        body_parser app r = Next P /\
        In (Called (ClientPublish "trading-signals" (JSON_stringify P))) pre /\
        In (Settled (ClientPublish "trading-signals" (JSON_stringify P)) Fulfilled) pre).
Proof.
  unfold handle. destruct (body_parser app r) as [P | status] eqn:Hb.
  - destruct (find _ _) as [rt|] eqn:Hf; [|discriminate].
    intros [= <-].
    assert (route_handler rt = signal_handler) as ->.
    { simpl in Hf. destruct (matches _ r); [|discriminate].
      injection Hf as <-. reflexivity. }
    unfold completion, trace. rewrite handler_run.
    unfold received, overflowed, outcome, publish_of.
    destruct (serializable P) eqn:Hs; [destruct (env _ _) as [[|e]|] eqn:He|];
      cbn [fst snd List.app]; split.
    + right. exists P. split; [reflexivity|]. right. right. split; [exact Hs|].
      exists Fulfilled. eexists. split; reflexivity.
    + intros pre text post H. exists P. split; [reflexivity|].
      reply_position H pre. subst. split; [right; left | right; right; left]; reflexivity.
    + right. exists P. split; [reflexivity|]. right. right. split; [exact Hs|].
      exists (Rejected e). eexists. split; reflexivity.
    + intros pre text post H. reply_position H pre.
    + right. exists P. split; [reflexivity|]. right. left. split; [exact Hs|]. split; reflexivity.
    + intros pre text post H. reply_position H pre.
    + right. exists P. split; [reflexivity|]. left. split; [exact Hs | reflexivity].
    + intros pre text post H. reply_position H pre.
  - intros [= <-]. split.
    + left. exists status. split; reflexivity.
    + intros pre text post H. reply_position H pre.
Qed.

Lemma handling_steps_in_order_witness :
  ((exists status,
       body_parser app aapl_request = Fail status /\
       trace broker_up (signal_handler aapl_buy)
       = [Did (FinalHandler (error_status status))]) \/
   (exists P,
       body_parser app aapl_request = Next P /\
       ((serializable P = false /\
         trace broker_up (signal_handler aapl_buy)
         = [Did (ConsoleLog "Received signal:" (ValueArg P));
            Did (ConsoleError "Error publishing signal:" (ErrorArg stack_overflow));
            Did (ResStatusSend 500 "Error publishing signal")]) \/
        (serializable P = true /\
         completion broker_up (signal_handler aapl_buy)
         = Pending (ClientPublish "trading-signals" (JSON_stringify P)) /\
         trace broker_up (signal_handler aapl_buy)
         = [Did (ConsoleLog "Received signal:" (ValueArg P));
            Called (ClientPublish "trading-signals" (JSON_stringify P))]) \/
        (serializable P = true /\
         exists s reply,
           trace broker_up (signal_handler aapl_buy)
           = [Did (ConsoleLog "Received signal:" (ValueArg P));
              Called (ClientPublish "trading-signals" (JSON_stringify P));
              Settled (ClientPublish "trading-signals" (JSON_stringify P)) s] ++ reply /\
           match s with
           | Fulfilled => reply = [Did (ResStatusSend 200 "Signal received and published")]
           | Rejected e =>
               reply = [Did (ConsoleError "Error publishing signal:" (ErrorArg e));
                        Did (ResStatusSend 500 "Error publishing signal")]
           end)))) /\
  (forall pre text post,
      trace broker_up (signal_handler aapl_buy)
      = pre ++ Did (ResStatusSend 200 text) :: post ->
      exists P,
        body_parser app aapl_request = Next P /\
        In (Called (ClientPublish "trading-signals" (JSON_stringify P))) pre /\
        In (Settled (ClientPublish "trading-signals" (JSON_stringify P)) Fulfilled) pre).
Proof.
  apply (handling_steps_in_order broker_up aapl_request (signal_handler aapl_buy)).
  reflexivity.
Defined.

(** C9, amended: no exception leaves the handler: on every body and in
    every environment every error raised inside it, by [JSON.stringify]
    or by the publish call, is caught, logged and answered with 500 and
    ["Error publishing signal"].  The handler writes at most one reply:
    none while its publish call is pending, and exactly one once the call
    has settled or the serialization has thrown, 200 with
    ["Signal received and published"] after a fulfilled call and the 500
    otherwise. *)
Theorem handler_catches_everything (env : Env) (body : JSValue) :
  (forall e, completion env (signal_handler body) <> Abrupt e) /\
  (List.length (sent (trace env (signal_handler body))) <= 1)%nat /\
  ((serializable body = false /\
    completion env (signal_handler body) = Normal tt /\
    sent (trace env (signal_handler body)) = [(500, "Error publishing signal")] /\
    logged_errors (trace env (signal_handler body)) = [stack_overflow] /\
    publishes (trace env (signal_handler body)) = []) \/
   (serializable body = true /\
    completion env (signal_handler body)
    = Pending (ClientPublish "trading-signals" (JSON_stringify body)) /\
    sent (trace env (signal_handler body)) = [] /\
    logged_errors (trace env (signal_handler body)) = []) \/
   (serializable body = true /\
    In (Settled (ClientPublish "trading-signals" (JSON_stringify body)) Fulfilled)
       (trace env (signal_handler body)) /\
    completion env (signal_handler body) = Normal tt /\
    sent (trace env (signal_handler body)) = [(200, "Signal received and published")] /\
    logged_errors (trace env (signal_handler body)) = []) \/
   (exists e,
       serializable body = true /\
       In (Settled (ClientPublish "trading-signals" (JSON_stringify body)) (Rejected e))
          (trace env (signal_handler body)) /\
       completion env (signal_handler body) = Normal tt /\
       sent (trace env (signal_handler body)) = [(500, "Error publishing signal")] /\
       logged_errors (trace env (signal_handler body)) = [e])).
Proof.
  unfold completion, trace. rewrite handler_run.
  unfold received, overflowed, outcome, publish_of.
  destruct (serializable body); [destruct (env _ _) as [[|e]|]|];
    cbn [fst snd List.app]; (split; [discriminate|]); (split; [simpl; lia|]).
  - right. right. left. simpl. repeat split; auto.
  - right. right. right. exists e. simpl. repeat split; auto.
  - right. left. repeat split.
  - left. repeat split.
Qed.

(** C10, as stated, fails: a request without a body reaches the handler,
    which makes the publish call with ["{}"], but with the broker down the
    reply is 500, not 200. *)
Lemma bodiless_request_broker_down :
  post_signal bodiless_request /\
  no_json_body bodiless_request /\
  handle app bodiless_request = Some (signal_handler empty_object) /\
  publishes (trace broker_down (signal_handler empty_object)) = [("trading-signals", "{}")] /\
  statuses (trace broker_down (signal_handler empty_object)) = [500] /\
  statuses (trace broker_down (signal_handler empty_object)) <> [200].
Proof.
  repeat split; try discriminate. left. reflexivity.
Qed.

(** C10, amended: a [POST /signal] request whose body is absent or is not
    presented as JSON is not refused by the body parser, which leaves the
    empty object as the body; the handler makes the publish call with the
    two-character string ["{}"] on [trading-signals], and replies 200 when
    that call succeeds. *)
Theorem bodiless_request_publishes_empty_object (env : Env) (r : Request) :
  post_signal r ->
  no_json_body r ->
  exists p,
    body_parser app r = Next empty_object /\
    handle app r = Some p /\
    publishes (trace env p) = [("trading-signals", "{}")] /\
    String.length "{}" = 2%nat /\
    (In (Settled (ClientPublish "trading-signals" "{}") Fulfilled) (trace env p) ->
     statuses (trace env p) = [200] /\
     sent (trace env p) = [(200, "Signal received and published")]).
Proof.
  intros Hr Hn. exists (signal_handler empty_object).
  pose proof (json_no_body r Hn) as Hb.
  split; [exact Hb|]. split; [now apply handle_parsed|].
  unfold trace. rewrite handler_run.
  replace (serializable empty_object) with true by reflexivity.
  destruct (env _ _) as [[|e]|]; simpl.
  - repeat split.
  - split; [reflexivity|]. split; [reflexivity|]. intros H.
    repeat (destruct H as [H | H]; [discriminate H|]). destruct H.
  - split; [reflexivity|]. split; [reflexivity|]. intros H.
    repeat (destruct H as [H | H]; [discriminate H|]). destruct H.
Qed.

Lemma bodiless_request_publishes_empty_object_witness :
  exists p,
    body_parser app bodiless_request = Next empty_object /\
    handle app bodiless_request = Some p /\
    publishes (trace broker_up p) = [("trading-signals", "{}")] /\
    String.length "{}" = 2%nat /\
    (In (Settled (ClientPublish "trading-signals" "{}") Fulfilled) (trace broker_up p) ->
     statuses (trace broker_up p) = [200] /\
     sent (trace broker_up p) = [(200, "Signal received and published")]).
Proof.
  apply (bodiless_request_publishes_empty_object broker_up bodiless_request).
  - split; reflexivity.
  - left. reflexivity.
Defined.




(** ** The process: what every reachable state satisfies *)

(** A run is a sequence of turns: the events of the first turn, then, if
    the function waits for a call, the settlement the environment decides
    and the run of the continuation. *)
Lemma run_by_turns (env : Env) (p : Prog unit) (past : list Event) :
  run env past p
  = match advance p with
    | (es, Finished) => (past ++ es, Normal tt)
    | (es, Uncaught e) => (past ++ es, Abrupt e)
    | (es, Suspended o k) =>
        match env (past ++ es) o with
        | Some s => run env ((past ++ es) ++ [Settled o s]) (k s)
        | None => (past ++ es, Pending o)
        end
    end.
Proof.
  revert past. induction p as [[] | e | o k IH | o k _]; intros past; simpl.
  - now rewrite app_nil_r.
  - now rewrite app_nil_r.
  - rewrite IH. destruct (advance k) as [es [|e|o' k']]; simpl;
      now rewrite <- !app_assoc.
  - reflexivity.
Qed.

(** The places where the program's functions wait are these and no
    others. *)
Lemma startServer_turns :
  advance startServer = ([Called ClientConnect], Suspended ClientConnect after_connect) /\
  advance (after_connect Fulfilled)
  = ([Called (AppListen 3000)], Suspended (AppListen 3000) after_listen) /\
  advance (after_listen Fulfilled)
  = ([Did (ConsoleLog "Server is running on port 3000" NoArg)], Finished) /\
  (forall e, advance (after_connect (Rejected e)) = ([], Uncaught e)) /\
  (forall e, advance (after_listen (Rejected e)) = ([], Uncaught e)).
Proof. repeat split. Qed.

Lemma after_publish_turn (s : Settlement) :
  advance (after_publish s) = (outcome s, Finished).
Proof. destruct s; reflexivity. Qed.

Lemma ordered_app (c : bool) (l m : list (TaskId * Event)) :
  ordered c (l ++ m)
  = ordered c l && ordered (c || existsb connect_fulfilled l) m.
Proof.
  revert c. induction l as [|x l IH]; intros c; simpl.
  - now rewrite orb_false_r.
  - rewrite IH, orb_assoc, andb_assoc. reflexivity.
Qed.

Lemma ordered_split (c : bool) (pre post : list (TaskId * Event)) (x : TaskId * Event) :
  ordered c (pre ++ x :: post) = true ->
  listen_called x = true ->
  c || existsb connect_fulfilled pre = true.
Proof.
  rewrite ordered_app. simpl. intros H Hx. rewrite Hx in H.
  apply andb_prop in H as [_ H]. apply andb_prop in H as [H _]. exact H.
Qed.

Lemma existsb_none {A : Type} (f : A -> bool) (l : list A) (x : A) :
  existsb f l = false -> In x l -> f x = false.
Proof.
  intros H Hin. destruct (f x) eqn:Hf; [|reflexivity].
  rewrite <- H. symmetry. apply existsb_exists. now exists x.
Qed.

Lemma same_task_eq (a b : TaskId) : same_task a b = true -> a = b.
Proof.
  destruct a, b; simpl; intros H; try discriminate; try reflexivity.
  apply Nat.eqb_eq in H. now subst.
Qed.

Lemma take_some (tid : TaskId) (ws rest : list Waiting) (w : Waiting) :
  take tid ws = Some (w, rest) ->
  In w ws /\ same_task (fst (fst w)) tid = true /\
  (forall P : Waiting -> Prop, Forall P ws -> Forall P rest).
Proof.
  revert w rest. induction ws as [|a ws IH]; intros w rest; simpl; [discriminate|].
  destruct (same_task (fst (fst a)) tid) eqn:Ha.
  - intros [= <- <-]. split; [now left|]. split; [exact Ha|].
    intros P HP. now inversion HP.
  - destruct (take tid ws) as [[found others]|]; [|discriminate].
    intros [= <- <-]. destruct (IH found others eq_refl) as (Hin & Hs & HF).
    split; [now right|]. split; [exact Hs|].
    intros P HP. inversion HP; subst. constructor; auto.
Qed.

(** What the application gives for a request: nothing, Express's error
    reply, or the handler on the parsed body. *)
Lemma handle_cases (req : Request) :
  handle app req = None \/
  (exists status, handle app req = Some (call (FinalHandler status))) \/
  (exists body, handle app req = Some (signal_handler body)).
Proof.
  unfold handle. destruct (body_parser app req) as [body | status].
  - simpl. destruct (matches _ req).
    + right. right. now exists body.
    + now left.
  - right. left. now eexists.
Qed.

Lemma boot_inv : Inv boot.
Proof.
  split; try reflexivity.
  - repeat constructor.
  - now apply phase_connecting.
Qed.

Lemma emit_error_logs (e : JSError) (st : Process) :
  exited st = None ->
  error_listeners st = client_error_listeners ->
  emit_error e st
  = record Listener [Did (ConsoleLog "Redis Client Error" (ErrorArg e))] st.
Proof.
  intros Hex Hl. unfold emit_error. rewrite Hl. simpl.
  unfold run_task. rewrite Hex. reflexivity.
Qed.

(** The facts about a log that grew by a few events. *)
Ltac log_grows :=
  rewrite ?app_nil_r, <- ?app_assoc, ?ordered_app, ?existsb_app; simpl;
  repeat match goal with
         | H : _ = existsb _ _ |- _ => rewrite <- H
         | H : existsb _ _ = _ |- _ => rewrite H
         | H : ordered _ _ = _ |- _ => rewrite H
         end;
  simpl; rewrite ?orb_true_r, ?orb_false_r, ?andb_true_r;
  try reflexivity; try assumption.

Ltac log_fixed :=
  rewrite ?app_nil_r, <- ?app_assoc;
  apply Forall_app; split; [assumption | repeat constructor].

Lemma step_inv (st : Process) (i : Input) : Inv st -> Inv (step st i).
Proof.
  intros HI. unfold step. destruct (exited st) as [dead|] eqn:Hex; [exact HI|].
  destruct HI as [Hl Hc Ho Hf Hp].
  destruct st as [ex c lis els nr ws lg]. simpl in *. subst ex els.
  destruct i as [req | tid s | e].
  - (* a request arrives *)
    destruct lis as [port|]; [|now split].
    inversion Hp as [? ? Hlis | | Hcon Hrej Hws Hport]; simpl in *; try discriminate.
    subst c.
    destruct (handle_cases req) as [-> | [[status ->] | [body ->]]];
      [now split | |]; unfold run_task.
    + simpl. split; simpl; [reflexivity | log_grows | log_grows | log_fixed |].
      apply phase_connected; simpl; auto. log_grows.
    + rewrite handler_turn. destruct (serializable body); simpl;
        (split; simpl; [reflexivity | log_grows | log_grows | log_fixed |]);
        apply phase_connected; simpl; auto; try log_grows.
      apply Forall_app. split; [assumption|]. repeat constructor.
  - (* a call settles *)
    destruct (take tid ws) as [[[[tid' o] k] rest]|] eqn:Ht; [|now split].
    destruct (take_some _ _ _ _ Ht) as (Hin & Hs & Hrest). simpl in Hs.
    apply same_task_eq in Hs. subst tid'.
    inversion Hp as [_ Hws Hlis Hcon Hnol Hrej | | Hcon Hrej Hws Hport];
      simpl in *; try discriminate.
    + (* still connecting *)
      subst ws lis c. destruct Hin as [Hin | []]. injection Hin as <- <- <-.
      simpl in Ht. injection Ht as <-.
      destruct s as [|e]; unfold run_task; simpl.
      * split; simpl; [reflexivity | log_grows | log_grows | log_fixed |].
        apply phase_connected; simpl; auto.
        -- log_grows.
        -- repeat constructor.
        -- discriminate.
      * split; simpl; [reflexivity | log_grows | log_grows | log_fixed |].
        apply (phase_failed _ e); simpl; auto.
        -- log_grows.
        -- intros e'. rewrite app_nil_r. intros Hin.
           apply in_app_or in Hin as [Hin | [Hin | []]].
           ++ now apply (existsb_none _ _ _ Hrej) in Hin.
           ++ congruence.
    + (* connected *)
      subst c.
      pose proof (proj1 (Forall_forall _ _) Hws _ Hin) as Hw.
      inversion Hw; subst; destruct s as [|e]; unfold run_task; simpl;
        (split; simpl; [reflexivity | log_grows | log_grows | log_fixed |]).
      * apply phase_connected; simpl; auto; [log_grows|].
        intros port [= <-]. reflexivity.
      * apply (phase_connected _); simpl; auto. log_grows.
      * apply phase_connected; simpl; auto. log_grows.
      * apply phase_connected; simpl; auto. log_grows.
  - (* the client emits 'error' *)
    rewrite emit_error_logs by reflexivity.
    split; simpl; [reflexivity | log_grows | log_grows | log_fixed |].
    inversion Hp as [_ Hws Hlis Hcon Hnol Hrej | | Hcon Hrej Hws Hport];
      simpl in *; try discriminate.
    + apply phase_connecting; simpl; auto; log_grows.
    + apply phase_connected; simpl; auto. log_grows.
Qed.

Lemma reachable_inv (st : Process) : reachable st -> Inv st.
Proof.
  induction 1 as [|st i _ IH]; [exact boot_inv | exact (step_inv st i IH)].
Qed.

Lemma exec_reachable (inputs : list Input) : reachable (exec inputs).
Proof.
  unfold exec. generalize reach_boot. generalize boot.
  induction inputs as [|i inputs IH]; intros st H; simpl; [exact H|].
  apply IH, reach_step, H.
Qed.

Lemma reachable_exec (st : Process) : reachable st -> exists inputs, st = exec inputs.
Proof.
  induction 1 as [|st i _ [inputs ->]].
  - now exists [].
  - exists (inputs ++ [i]). unfold exec. now rewrite fold_left_app.
Qed.

Lemma exec_inv (inputs : list Input) : Inv (exec inputs).
Proof. apply reachable_inv, exec_reachable. Qed.

(** Both courses of the start-up happen. *)
Example startup_succeeds :
  listening (exec [Settle Main Fulfilled; Settle Main Fulfilled]) = Some 3000 /\
  map snd (log (exec [Settle Main Fulfilled; Settle Main Fulfilled]))
  = [Called ClientConnect; Settled ClientConnect Fulfilled;
     Called (AppListen 3000); Settled (AppListen 3000) Fulfilled;
     Did (ConsoleLog "Server is running on port 3000" NoArg)].
Proof. split; reflexivity. Qed.

Example startup_fails :
  exited (exec [Settle Main (Rejected connection_lost); Incoming aapl_request])
  = Some connection_lost /\
  log (exec [Settle Main (Rejected connection_lost); Incoming aapl_request])
  = [(Main, Called ClientConnect);
     (Main, Settled ClientConnect (Rejected connection_lost))].
Proof. split; reflexivity. Qed.

(** C7: in every execution the client's ['error'] listener is the
    registered one; an ['error'] event of the client writes one log line
    and changes nothing else: the process does not exit, and the handlers
    waiting for their publish call keep waiting.  A rejected publish call
    is the failure of the one request that made it: its handler logs the
    error and replies 500, the process lives on, and the other waiting
    functions are untouched. *)
Theorem connection_errors_are_only_logged (inputs : list Input) (e : JSError) :
  error_listeners (exec inputs) = [on_client_error] /\
  exited (step (exec inputs) (ClientError e)) = exited (exec inputs) /\
  waiting (step (exec inputs) (ClientError e)) = waiting (exec inputs) /\
  connected (step (exec inputs) (ClientError e)) = connected (exec inputs) /\
  listening (step (exec inputs) (ClientError e)) = listening (exec inputs) /\
  log (step (exec inputs) (ClientError e))
  = log (exec inputs)
    ++ match exited (exec inputs) with
       | Some _ => []
       | None => [(Listener, Did (ConsoleLog "Redis Client Error" (ErrorArg e)))]
       end /\
  (forall n w rest,
      exited (exec inputs) = None ->
      take (Req n) (waiting (exec inputs)) = Some (w, rest) ->
      exists message,
        w = (Req n, ClientPublish "trading-signals" message, after_publish) /\
        exited (step (exec inputs) (Settle (Req n) (Rejected e))) = None /\
        waiting (step (exec inputs) (Settle (Req n) (Rejected e))) = rest /\
        log (step (exec inputs) (Settle (Req n) (Rejected e)))
        = log (exec inputs)
          ++ [(Req n, Settled (ClientPublish "trading-signals" message) (Rejected e));
              (Req n, Did (ConsoleError "Error publishing signal:" (ErrorArg e)));
              (Req n, Did (ResStatusSend 500 "Error publishing signal"))]).
Proof.
  destruct (exec_inv inputs) as [Hl Hc Ho Hf Hp].
  split; [exact Hl|].
  assert (Hstep : step (exec inputs) (ClientError e)
                  = match exited (exec inputs) with
                    | Some _ => exec inputs
                    | None => record Listener
                                [Did (ConsoleLog "Redis Client Error" (ErrorArg e))]
                                (exec inputs)
                    end).
  { unfold step. destruct (exited (exec inputs)) eqn:Hex; [reflexivity|].
    now apply emit_error_logs. }
  rewrite Hstep. destruct (exited (exec inputs)) eqn:Hex.
  - repeat split; auto using app_nil_r. intros; discriminate.
  - simpl. split; [exact Hex|]. repeat (split; [reflexivity|]).
    intros n w rest _ Ht.
    destruct (take_some _ _ _ _ Ht) as (Hin & Hs & _).
    apply same_task_eq in Hs.
    assert (Hw : later w).
    { inversion Hp as [_ Hws _ _ _ _ | e' Hex' _ _ _ | _ _ Hws _].
      - rewrite Hws in Hin. destruct Hin as [<- | []]. discriminate Hs.
      - congruence.
      - exact (proj1 (Forall_forall _ _) Hws _ Hin). }
    inversion Hw as [|m body]; subst w; simpl in Hs; [discriminate|].
    injection Hs as ->.
    exists (JSON_stringify body). split; [reflexivity|].
    unfold step. rewrite Hex, Ht. unfold run_task. simpl. rewrite Hex. simpl.
    rewrite <- app_assoc. repeat split. exact Hex.
Qed.

(** Without the listener the same event would end the process. *)
Example error_event_without_listener :
  exited (emit_error connection_lost (mkProcess None true (Some 3000) [] 0 [] []))
  = Some connection_lost.
Proof. reflexivity. Qed.

(** A connection error while a request waits for its publish call. *)
Example error_during_request :
  map fst
    (log (exec [Settle Main Fulfilled; Settle Main Fulfilled; Incoming aapl_request;
                ClientError connection_lost; Settle (Req 0) Fulfilled]))
  = [Main; Main; Main; Main; Main; Req 0; Req 0; Listener; Req 0; Req 0] /\
  statuses
    (map snd
       (log (exec [Settle Main Fulfilled; Settle Main Fulfilled; Incoming aapl_request;
                   ClientError connection_lost; Settle (Req 0) Fulfilled])))
  = [200].
Proof. split; reflexivity. Qed.

Lemma matches_post_signal (req : Request) :
  matches (mkRoute "POST" "/signal" signal_handler) req = true <-> post_signal req.
Proof.
  unfold matches, post_signal. simpl. rewrite andb_true_iff, String.eqb_eq. reflexivity.
Qed.


(** ** The life of the start-up and of each request *)

Lemma same_task_refl (t : TaskId) : same_task t t = true.
Proof. destruct t; simpl; auto using Nat.eqb_refl. Qed.

Lemma same_task_neq (a b : TaskId) : a <> b -> same_task a b = false.
Proof.
  intros H. destruct (same_task a b) eqn:E; [|reflexivity].
  now apply same_task_eq in E.
Qed.

Lemma events_of_app (tid : TaskId) (l m : list (TaskId * Event)) :
  events_of tid (l ++ m) = events_of tid l ++ events_of tid m.
Proof. unfold events_of. now rewrite filter_app, map_app. Qed.

Lemma events_of_own (tid : TaskId) (es : list Event) :
  events_of tid (map (pair tid) es) = es.
Proof.
  unfold events_of. induction es as [|e es IH]; simpl; [reflexivity|].
  rewrite same_task_refl. simpl. now rewrite IH.
Qed.

Lemma events_of_other (tid tid' : TaskId) (es : list Event) :
  tid' <> tid -> events_of tid (map (pair tid') es) = [].
Proof.
  intros H. unfold events_of. induction es as [|e es IH]; simpl; [reflexivity|].
  now rewrite (same_task_neq _ _ H).
Qed.

Lemma events_of_skip (tid : TaskId) (x : TaskId * Event) (l : list (TaskId * Event)) :
  fst x <> tid -> events_of tid (x :: l) = events_of tid l.
Proof. intros H. unfold events_of. simpl. now rewrite (same_task_neq _ _ H). Qed.

Lemma events_of_keep (tid : TaskId) (e : Event) (l : list (TaskId * Event)) :
  events_of tid ((tid, e) :: l) = e :: events_of tid l.
Proof. unfold events_of. simpl. now rewrite same_task_refl. Qed.

Lemma events_of_nil (tid : TaskId) : events_of tid [] = [].
Proof. reflexivity. Qed.

Lemma events_of_In (tid : TaskId) (e : Event) (l : list (TaskId * Event)) :
  In (tid, e) l <-> In e (events_of tid l).
Proof.
  unfold events_of. rewrite in_map_iff. split.
  - intros H. exists (tid, e). split; [reflexivity|].
    apply filter_In. split; [exact H | apply same_task_refl].
  - intros [[t e'] [He H]]. simpl in He. subst e'.
    apply filter_In in H as [H Ht]. simpl in Ht.
    apply same_task_eq in Ht. now subst t.
Qed.

Lemma take_task (tid : TaskId) (ws rest : list Waiting) (w : Waiting) :
  take tid ws = Some (w, rest) -> task_of w = tid /\ In w ws.
Proof.
  intros H. destruct (take_some _ _ _ _ H) as (Hin & Hs & _).
  split; [now apply same_task_eq | exact Hin].
Qed.

Lemma take_others (tid : TaskId) (ws rest : list Waiting) (w : Waiting) :
  take tid ws = Some (w, rest) ->
  forall w', task_of w' <> tid -> (In w' rest <-> In w' ws).
Proof.
  revert w rest. induction ws as [|a ws IH]; intros w rest; simpl; [discriminate|].
  destruct (same_task (fst (fst a)) tid) eqn:Ha.
  - intros [= <- <-] w' Hw'. apply same_task_eq in Ha. split; [now right|].
    intros [<- | H]; [now destruct Hw' | exact H].
  - destruct (take tid ws) as [[found others]|]; [|discriminate].
    intros [= <- <-] w' Hw'. simpl. now rewrite (IH found others eq_refl w' Hw').
Qed.

Lemma take_rest (tid : TaskId) (ws rest : list Waiting) (w : Waiting) :
  take tid ws = Some (w, rest) ->
  NoDup (map task_of ws) ->
  NoDup (map task_of rest) /\ idle tid rest /\
  (forall w', In w' rest -> In w' ws).
Proof.
  revert w rest. induction ws as [|a ws IH]; intros w rest; simpl; [discriminate|].
  destruct (same_task (fst (fst a)) tid) eqn:Ha.
  - intros [= <- <-] Hnd. apply same_task_eq in Ha. inversion Hnd as [|? ? Hnot Hnd']; subst.
    split; [exact Hnd'|]. split; [|now right].
    intros w' Hin Heq. apply Hnot. change (task_of a) with (fst (fst a)).
    rewrite <- Heq. exact (in_map task_of _ _ Hin).
  - destruct (take tid ws) as [[found others]|]; [|discriminate].
    intros [= <- <-] Hnd. inversion Hnd as [|? ? Hnot Hnd']; subst.
    destruct (IH found others eq_refl Hnd') as (Hnd'' & Hidle & Hsub).
    split; [|split].
    + simpl. constructor; [|exact Hnd''].
      intros Hin. apply Hnot. apply in_map_iff in Hin as [w' [Hw' Hin]].
      apply in_map_iff. exists w'. split; [exact Hw' | now apply Hsub].
    + intros w' [<- | Hin].
      * intros Heq. unfold task_of in Heq. rewrite Heq, same_task_refl in Ha. discriminate.
      * now apply Hidle.
    + intros w' [<- | Hin]; [now left | right; now apply Hsub].
Qed.

Lemma one_wait (ws : list Waiting) (w w' : Waiting) :
  NoDup (map task_of ws) -> In w ws -> In w' ws -> task_of w = task_of w' -> w = w'.
Proof.
  induction ws as [|a ws IH]; simpl; [contradiction|].
  intros Hnd Hw Hw' Heq. inversion Hnd as [|? ? Hnot Hnd']; subst.
  destruct Hw as [<- | Hw], Hw' as [<- | Hw'].
  - reflexivity.
  - destruct Hnot. rewrite Heq. exact (in_map task_of _ _ Hw').
  - destruct Hnot. rewrite <- Heq. exact (in_map task_of _ _ Hw).
  - now apply IH.
Qed.

(** A step that leaves the events and the waiting function of request
    [n] alone leaves its stage alone. *)
Lemma stage_frame (n : nat) (st st' : Process) :
  (next_request st' = next_request st \/
   (next_request st' = S (next_request st) /\ n <> next_request st)) ->
  events_of (Req n) (log st') = events_of (Req n) (log st) ->
  (forall w, task_of w = Req n -> (In w (waiting st') <-> In w (waiting st))) ->
  stage n st -> stage n st'.
Proof.
  intros Hnr Hev Hw Hst.
  assert (Hidle : idle (Req n) (waiting st) -> idle (Req n) (waiting st')).
  { intros Hi w Hin Ht. apply (Hi w); [now apply Hw | exact Ht]. }
  destruct Hst as [Hle He Hi | status Hlt He Hi | body Hlt Hs He Hi
                   | body Hlt Hs He Hin | body s Hlt Hs He Hi].
  - apply not_arrived; [lia | congruence | auto].
  - apply (refused _ _ status); [lia | congruence | auto].
  - apply (thrown _ _ body); [lia | exact Hs | congruence | auto].
  - apply (pending _ _ body); [lia | exact Hs | congruence | now apply Hw].
  - apply (settled _ _ body s); [lia | exact Hs | congruence | auto].
Qed.

Lemma settle_publish (body : JSValue) (s : Settlement) (st : Process) :
  settle (publish_of body) s st = st.
Proof. destruct s; reflexivity. Qed.

Lemma boot_orderly : Orderly boot.
Proof.
  split.
  - reflexivity.
  - now apply connecting_up.
  - intros n. apply not_arrived; [simpl; lia | reflexivity |].
    intros w [<- | []]. discriminate.
  - simpl. repeat constructor. intros [].
Qed.

(** The events of a task in a log that grew by a few entries. *)
Ltac grown :=
  simpl; rewrite ?events_of_app;
  rewrite ?events_of_own; rewrite ?events_of_other by congruence;
  repeat first [ rewrite events_of_keep
               | rewrite events_of_skip by (simpl; congruence) ];
  rewrite ?events_of_nil, ?app_nil_r;
  repeat match goal with
         | H : events_of _ _ = _ |- _ => rewrite H
         end;
  simpl; rewrite <- ?app_assoc; try reflexivity.

Lemma step_orderly (st : Process) (i : Input) : Orderly st -> Orderly (step st i).
Proof.
  intros HO. unfold step. destruct (exited st) as [dead|] eqn:Hex; [exact HO|].
  destruct HO as [Hl Hs Hr Hn].
  destruct st as [ex c lis els nr ws lg]. simpl in *. subst ex els.
  destruct i as [req | tid s | e].
  - (* a request arrives *)
    destruct lis as [port|]; [|now split].
    inversion Hs as [ | | | | _ Hlis Hcon Him Hil Hev]; simpl in *; try discriminate.
    destruct (handle_cases req) as [-> | [[status ->] | [body ->]]];
      [now split | |]; unfold run_task;
      [|rewrite handler_turn; destruct (serializable body) eqn:Hser]; simpl.
    + (* the parser refuses the body *)
      split; simpl; [reflexivity | | | exact Hn].
      * apply serving; simpl; auto. grown.
      * intros n. destruct (Nat.eq_dec n nr) as [-> | Hne].
        -- destruct (Hr nr) as [_ He Hi | ? Hlt | ? Hlt | ? Hlt | ? ? Hlt];
             simpl in *; try lia.
           apply (refused _ _ status); simpl; [lia | | exact Hi].
           grown.
        -- refine (stage_frame n _ _ _ _ _ (Hr n)); simpl; [right; now split | | tauto].
           grown.
    + (* the handler makes its publish call *)
      split; simpl; [reflexivity | | |].
      * apply serving; simpl; auto.
        -- intros w Hin. apply in_app_or in Hin as [Hin | [<- | []]]; [now apply Him | discriminate].
        -- intros w Hin. apply in_app_or in Hin as [Hin | [<- | []]]; [now apply Hil | discriminate].
        -- grown.
      * intros n. destruct (Nat.eq_dec n nr) as [-> | Hne].
        -- destruct (Hr nr) as [_ He Hi | ? Hlt | ? Hlt | ? Hlt | ? ? Hlt];
             simpl in *; try lia.
           apply (pending _ _ body); simpl;
             [lia | exact Hser | | apply in_or_app; right; now left].
           grown.
        -- refine (stage_frame n _ _ _ _ _ (Hr n)); simpl; [right; now split | | ].
           ++ grown.
           ++ intros w Hw. split; [|intros; apply in_or_app; now left].
              intros Hin. apply in_app_or in Hin as [Hin | [<- | []]]; [exact Hin|].
              unfold task_of in Hw. simpl in Hw. congruence.
      * rewrite map_app. simpl.
        destruct (Hr nr) as [_ He Hi | ? Hlt | ? Hlt | ? Hlt | ? ? Hlt];
          simpl in *; try lia.
        apply NoDup_app; [exact Hn | repeat constructor; intros [] |].
        intros t Hin [<- | []]. apply in_map_iff in Hin as [w [Hw Hin]].
        exact (Hi w Hin Hw).
    + (* the serialization throws *)
      split; simpl; [reflexivity | | | exact Hn].
      * apply serving; simpl; auto. grown.
      * intros n. destruct (Nat.eq_dec n nr) as [-> | Hne].
        -- destruct (Hr nr) as [_ He Hi | ? Hlt | ? Hlt | ? Hlt | ? ? Hlt];
             simpl in *; try lia.
           apply (thrown _ _ body); simpl; [lia | exact Hser | | exact Hi].
           grown.
        -- refine (stage_frame n _ _ _ _ _ (Hr n)); simpl; [right; now split | | tauto].
           grown.
  - (* a call settles *)
    destruct (take tid ws) as [[[[tid' o] k] rest]|] eqn:Ht; [|now split].
    destruct (take_task _ _ _ _ Ht) as [Htid Hin]. unfold task_of in Htid.
    simpl in Htid. subst tid'.
    destruct (take_rest _ _ _ _ Ht Hn) as (Hn' & Hidle & Hsub).
    inversion Hs as [ _ Hlis Hcon Hnr Hws Hev | | _ Hlis Hcon Hnr Hws Hev | |
                      _ Hlis Hcon Him Hil Hev]; simpl in *; try discriminate.
    + (* connecting *)
      subst ws lis c. destruct Hin as [Hin | []]. injection Hin as <- <- <-.
      simpl in Ht. injection Ht as <-.
      destruct s as [|e]; unfold run_task; simpl.
      * split; simpl; [reflexivity | | | repeat constructor; intros []].
        -- apply binding; simpl; auto. grown.
        -- intros n. refine (stage_frame n _ _ _ _ _ (Hr n)); simpl; [now left | | ].
           ++ grown.
           ++ intros w Hw. split; intros [<- | []]; discriminate.
      * split; simpl; [reflexivity | | | constructor].
        -- apply (connect_failed _ e); simpl; auto. grown.
        -- intros n. refine (stage_frame n _ _ _ _ _ (Hr n)); simpl; [now left | | ].
           ++ grown.
           ++ intros w Hw. split; [intros [] | intros [<- | []]; discriminate].
    + (* binding *)
      subst ws lis c. destruct Hin as [Hin | []]. injection Hin as <- <- <-.
      simpl in Ht. injection Ht as <-.
      destruct s as [|e]; unfold run_task; simpl.
      * split; simpl; [reflexivity | | | constructor].
        -- apply serving; simpl; auto; try (intros w []). grown.
        -- intros n. refine (stage_frame n _ _ _ _ _ (Hr n)); simpl; [now left | | ].
           ++ grown.
           ++ intros w Hw. split; [intros [] | intros [<- | []]; discriminate].
      * split; simpl; [reflexivity | | | constructor].
        -- apply (bind_failed _ e); simpl; auto. grown.
        -- intros n. refine (stage_frame n _ _ _ _ _ (Hr n)); simpl; [now left | | ].
           ++ grown.
           ++ intros w Hw. split; [intros [] | intros [<- | []]; discriminate].
    + (* serving *)
      destruct tid as [| | m];
        [destruct (Him _ Hin eq_refl) | destruct (Hil _ Hin eq_refl) |].
      destruct (Hr m) as [_ _ Hi | ? _ _ Hi | ? _ _ _ Hi | body Hlt Hser He Hp
                          | ? ? _ _ _ Hi];
        try (destruct (Hi _ Hin eq_refl)).
      pose proof (one_wait _ _ _ Hn Hin Hp eq_refl) as Hw. injection Hw as -> ->.
      rewrite settle_publish. unfold run_task. simpl. rewrite after_publish_turn.
      split; simpl; [reflexivity | | | exact Hn'].
      * apply serving; simpl; auto.
        -- intros w Hw. apply Him. now apply Hsub.
        -- intros w Hw. apply Hil. now apply Hsub.
        -- grown.
      * intros n. destruct (Nat.eq_dec n m) as [-> | Hne].
        -- apply (settled _ _ body s); simpl; [exact Hlt | exact Hser | | exact Hidle].
           simpl in He. grown.
        -- refine (stage_frame n _ _ _ _ _ (Hr n)); simpl; [now left | | ].
           ++ grown.
           ++ intros w Hw. apply (take_others _ _ _ _ Ht). rewrite Hw. congruence.
  - (* the client emits 'error' *)
    rewrite emit_error_logs by reflexivity.
    split; simpl; [reflexivity | | | exact Hn].
    + inversion Hs as [ _ Hlis Hcon Hnr Hws Hev | | _ Hlis Hcon Hnr Hws Hev | |
                        _ Hlis Hcon Him Hil Hev]; simpl in *; try discriminate.
      * apply connecting_up; simpl; auto. grown.
      * apply binding; simpl; auto. grown.
      * apply serving; simpl; auto. grown.
    + intros n. refine (stage_frame n _ _ _ _ _ (Hr n)); simpl; [now left | | tauto].
      grown.
Qed.

Lemma reachable_orderly (st : Process) : reachable st -> Orderly st.
Proof.
  induction 1 as [|st i _ IH]; [exact boot_orderly | exact (step_orderly st i IH)].
Qed.

Lemma exec_orderly (inputs : list Input) : Orderly (exec inputs).
Proof. apply reachable_orderly, exec_reachable. Qed.

(** ** Steps touch one task only *)

Lemma run_task_shape (tid : TaskId) (p : Prog unit) (st : Process) :
  exists es,
    log (run_task tid p st) = log st ++ map (pair tid) es /\
    next_request (run_task tid p st) = next_request st /\
    (forall w, task_of w <> tid ->
               (In w (waiting (run_task tid p st)) <-> In w (waiting st))).
Proof.
  unfold run_task. destruct (exited st).
  - exists []. simpl. rewrite app_nil_r. repeat split; auto.
  - destruct (advance p) as [es [|e|o k]]; exists es; simpl; repeat split; auto.
    + intros Hin. apply in_app_or in Hin as [Hin | [<- | []]]; [exact Hin|].
      now destruct H.
    + intros Hin. apply in_or_app. now left.
Qed.

Lemma emit_error_shape (e : JSError) (st : Process) :
  exists es,
    log (emit_error e st) = log st ++ map (pair Listener) es /\
    next_request (emit_error e st) = next_request st /\
    (forall w, task_of w <> Listener ->
               (In w (waiting (emit_error e st)) <-> In w (waiting st))).
Proof.
  unfold emit_error. destruct (error_listeners st) as [|l ls] eqn:Hl.
  - exists []. simpl. rewrite app_nil_r. repeat split; auto.
  - clear Hl. generalize (l :: ls). clear l ls. intros ls. revert st.
    induction ls as [|l ls IH]; intros st; simpl.
    + exists []. simpl. rewrite app_nil_r. repeat split; auto.
    + destruct (run_task_shape Listener (l e) st) as (es1 & Hlog1 & Hnr1 & Hw1).
      destruct (IH (run_task Listener (l e) st)) as (es2 & Hlog2 & Hnr2 & Hw2).
      exists (es1 ++ es2). rewrite Hlog2, Hlog1, Hnr2, Hnr1, map_app, app_assoc.
      repeat split; auto.
      * intros Hin. apply Hw1; [exact H|]. now apply Hw2.
      * intros Hin. apply Hw2; [exact H|]. now apply Hw1.
Qed.

(** Whatever the state, a step adds to the log only events of the task
    that runs, and adds or removes only a waiting function of that task. *)
Lemma step_by_actor (st : Process) (i : Input) :
  exists es,
    log (step st i) = log st ++ map (pair (actor st i)) es /\
    (next_request st <= next_request (step st i))%nat /\
    (forall w, task_of w <> actor st i ->
               (In w (waiting (step st i)) <-> In w (waiting st))).
Proof.
  assert (Hsame : exists es, log st = log st ++ map (pair (actor st i)) es /\
                             (next_request st <= next_request st)%nat /\
                             (forall w, task_of w <> actor st i ->
                                        (In w (waiting st) <-> In w (waiting st)))).
  { exists []. simpl. rewrite app_nil_r. repeat split; auto. }
  unfold step. destruct (exited st); [exact Hsame|].
  destruct i as [req | tid s | e]; simpl actor.
  - destruct (listening st); [|exact Hsame].
    destruct (handle app req) as [p|]; [|exact Hsame].
    destruct (run_task_shape (Req (next_request st)) p (accept st)) as (es & Hlog & Hnr & Hw).
    exists es. rewrite Hlog, Hnr. simpl. repeat split; auto; now apply Hw.
  - destruct (take tid (waiting st)) as [[[[tid' o] k] rest]|] eqn:Ht; [|exact Hsame].
    destruct (run_task_shape tid (k s)
                (record tid [Settled o s] (settle o s (resume rest st))))
      as (es & Hlog & Hnr & Hw).
    exists (Settled o s :: es). rewrite Hlog, Hnr.
    assert (Hst : forall o' s' st', log (settle o' s' st') = log st' /\
                                    next_request (settle o' s' st') = next_request st' /\
                                    waiting (settle o' s' st') = waiting st').
    { intros o' [|?] st'; [destruct o'|]; repeat split. }
    destruct (Hst o s (resume rest st)) as (Hl & Hn & Hws).
    simpl. rewrite Hl, Hn. simpl. rewrite <- app_assoc. repeat split; auto.
    + intros Hin. apply (take_others _ _ _ _ Ht); [exact H|].
      apply Hw in Hin; [|exact H]. simpl in Hin. now rewrite Hws in Hin.
    + intros Hin. apply Hw; [exact H|]. simpl. rewrite Hws. simpl.
      now apply (take_others _ _ _ _ Ht).
  - destruct (emit_error_shape e st) as (es & Hlog & Hnr & Hw).
    exists es. rewrite Hlog, Hnr. repeat split; auto; now apply Hw.
Qed.

(** ** Requests in flight *)

(** X1: in every execution, however the requests interleave, each request
    makes at most one publish call, has at most one message delivered and
    is answered at most once. *)
Theorem one_publish_one_reply (inputs : list Input) (n : nat) :
  (List.length (publishes (events_of (Req n) (log (exec inputs)))) <= 1)%nat /\
  (List.length (delivered (events_of (Req n) (log (exec inputs)))) <= 1)%nat /\
  (List.length (statuses (events_of (Req n) (log (exec inputs)))) <= 1)%nat.
Proof.
  destruct (request_stage _ (exec_orderly inputs) n)
    as [_ He _ | status _ He _ | body _ _ He _ | body _ _ He _ | body s _ _ He _];
    rewrite He; try (simpl; lia).
  destruct s; simpl; lia.
Qed.

(** X2: in every execution a request is answered 200 exactly when its own
    publish call was fulfilled, and 500 exactly when its own publish call
    was rejected or [JSON.stringify] threw on its own body, before any
    publish call; what happens to other requests changes neither. *)
Theorem reply_decided_by_own_handler (inputs : list Input) (n : nat) :
  (In (Did (ResStatusSend 200 "Signal received and published"))
      (events_of (Req n) (log (exec inputs))) <->
   exists message,
     In (Settled (ClientPublish "trading-signals" message) Fulfilled)
        (events_of (Req n) (log (exec inputs)))) /\
  (In (Did (ResStatusSend 500 "Error publishing signal"))
      (events_of (Req n) (log (exec inputs))) <->
   (exists message e,
       In (Settled (ClientPublish "trading-signals" message) (Rejected e))
          (events_of (Req n) (log (exec inputs)))) \/
   (exists body,
       serializable body = false /\
       events_of (Req n) (log (exec inputs))
       = [Did (ConsoleLog "Received signal:" (ValueArg body));
          Did (ConsoleError "Error publishing signal:" (ErrorArg stack_overflow));
          Did (ResStatusSend 500 "Error publishing signal")])).
Proof.
  destruct (request_stage _ (exec_orderly inputs) n)
    as [_ He _ | status _ He _ | body _ Hser He _ | body _ Hser He _
        | body [|e] _ Hser He _]; rewrite He; simpl.
  - split; split; [intros [] | intros [? []] | intros []
                   | intros [(? & ? & []) | (? & ? & H)]; discriminate H].
  - split; split; try (intros [H | []]; discriminate H).
    + intros [? [H | []]]. discriminate H.
    + intros [(? & ? & [H | []]) | (? & ? & H)]; discriminate H.
  - split; split.
    + intros [H | [H | [H | []]]]; discriminate H.
    + intros [? [H | [H | [H | []]]]]; discriminate H.
    + intros _. right. exists body. split; [exact Hser | reflexivity].
    + intros _. right. right. now left.
  - split; split; try (intros [H | [H | []]]; discriminate H).
    + intros [? [H | [H | []]]]; discriminate H.
    + intros [(? & ? & [H | [H | []]]) | (? & ? & H)]; discriminate H.
  - split; split.
    + intros _. exists (JSON_stringify body). right. right. now left.
    + intros _. right. right. right. now left.
    + intros [H | [H | [H | [H | []]]]]; discriminate H.
    + intros [(? & ? & [H | [H | [H | [H | []]]]]) | (? & ? & H)]; discriminate H.
  - split; split.
    + intros [H | [H | [H | [H | [H | []]]]]]; discriminate H.
    + intros (? & [H | [H | [H | [H | [H | []]]]]]); discriminate H.
    + intros _. left. exists (JSON_stringify body), e. right. right. now left.
    + intros _. right. right. right. right. now left.
Qed.

(** X3: no request is lost.  In every execution, a request the
    application has taken either has its one reply, and then nothing
    waits on its behalf, or has exactly logged its body and made its
    publish call, and then its handler waits for that call in a process
    that is alive. *)
Theorem accepted_request_answered_or_waiting (inputs : list Input) (n : nat) :
  (n < next_request (exec inputs))%nat ->
  (exists status,
      statuses (events_of (Req n) (log (exec inputs))) = [status] /\
      idle (Req n) (waiting (exec inputs))) \/
  (exists body,
      events_of (Req n) (log (exec inputs))
      = [Did (ConsoleLog "Received signal:" (ValueArg body));
         Called (ClientPublish "trading-signals" (JSON_stringify body))] /\
      In (Req n, ClientPublish "trading-signals" (JSON_stringify body), after_publish)
         (waiting (exec inputs)) /\
      exited (exec inputs) = None).
Proof.
  intros Hn. pose proof (exec_orderly inputs) as [_ Hs Hr _].
  assert (Hex : exited (exec inputs) = None).
  { inversion Hs as [ ? ? ? Hnr | ? ? ? ? Hnr | ? ? ? Hnr | ? ? ? ? Hnr | Hex ];
      [lia | lia | lia | lia | exact Hex]. }
  destruct (Hr n) as [Hle _ _ | status _ He Hi | body _ _ He Hi | body _ _ He Hw
                      | body s _ _ He Hi].
  - lia.
  - left. exists status. now rewrite He.
  - left. exists 500. now rewrite He.
  - right. exists body. repeat split; assumption.
  - left. rewrite He. destruct s; [exists 200 | exists 500]; now split.
Qed.

Lemma accepted_request_answered_or_waiting_witness :
  (exists status,
      statuses (events_of (Req 0) (log (exec busy))) = [status] /\
      idle (Req 0) (waiting (exec busy))) \/
  (exists body,
      events_of (Req 0) (log (exec busy))
      = [Did (ConsoleLog "Received signal:" (ValueArg body));
         Called (ClientPublish "trading-signals" (JSON_stringify body))] /\
      In (Req 0, ClientPublish "trading-signals" (JSON_stringify body), after_publish)
         (waiting (exec busy)) /\
      exited (exec busy) = None).
Proof.
  apply (accepted_request_answered_or_waiting busy 0%nat). vm_compute. lia.
Defined.

Lemma take_found (ws : list Waiting) (w : Waiting) :
  NoDup (map task_of ws) -> In w ws ->
  exists rest, take (task_of w) ws = Some (w, rest).
Proof.
  intros Hn Hin.
  destruct (take (task_of w) ws) as [[w' rest]|] eqn:Ht.
  - destruct (take_task _ _ _ _ Ht) as [Htid Hin'].
    rewrite (one_wait _ _ _ Hn Hin' Hin Htid). now exists rest.
  - exfalso. clear Hn. induction ws as [|a ws IH]; [destruct Hin|].
    simpl in Ht. destruct (same_task (fst (fst a)) (task_of w)) eqn:Ha; [discriminate|].
    destruct Hin as [-> | Hin].
    + unfold task_of in Ha. now rewrite same_task_refl in Ha.
    + apply IH; [exact Hin|]. now destruct (take (task_of w) ws) as [[? ?]|].
Qed.

(** X4: a waiting request is always answered when its publish call
    settles.  In every execution, for a request that waits for its publish
    call, the settlement of that call adds to the request's events the
    settlement and the reply it decides, in the same turn, after which the
    request waits for nothing; the process cannot have exited meanwhile. *)
Theorem settlement_answers_request
        (inputs : list Input) (n : nat) (body : JSValue) (s : Settlement) :
  In (publish_wait n body) (waiting (exec inputs)) ->
  exited (exec inputs) = None /\
  events_of (Req n) (log (step (exec inputs) (Settle (Req n) s)))
  = events_of (Req n) (log (exec inputs))
    ++ Settled (publish_of body) s :: outcome s /\
  idle (Req n) (waiting (step (exec inputs) (Settle (Req n) s))) /\
  exited (step (exec inputs) (Settle (Req n) s)) = None.
Proof.
  intros Hin. destruct (exec_orderly inputs) as [Hl Hs Hr Hn].
  assert (Hex : exited (exec inputs) = None).
  { inversion Hs as [ ? ? ? ? Hws | ? ? ? ? ? Hws | ? ? ? ? Hws | ? ? ? ? ? Hws | ];
      try assumption; rewrite Hws in Hin; destruct Hin. }
  split; [exact Hex|].
  destruct (take_found _ _ Hn Hin) as [rest Ht].
  change (task_of (publish_wait n body)) with (Req n) in Ht.
  destruct (take_rest _ _ _ _ Ht Hn) as (_ & Hidle & _).
  unfold step. rewrite Hex. unfold publish_wait in Ht. rewrite Ht.
  rewrite settle_publish. unfold run_task. simpl.
  rewrite Hex, after_publish_turn. simpl.
  split; [|split; [exact Hidle | exact Hex]].
  rewrite <- app_assoc, !events_of_app, events_of_own. simpl.
  now rewrite events_of_keep.
Qed.

Lemma settlement_answers_request_witness :
  exited (exec busy) = None /\
  events_of (Req 0) (log (step (exec busy) (Settle (Req 0) (Rejected connection_lost))))
  = events_of (Req 0) (log (exec busy))
    ++ Settled (publish_of aapl_buy) (Rejected connection_lost)
       :: outcome (Rejected connection_lost) /\
  idle (Req 0) (waiting (step (exec busy) (Settle (Req 0) (Rejected connection_lost)))) /\
  exited (step (exec busy) (Settle (Req 0) (Rejected connection_lost))) = None.
Proof.
  apply (settlement_answers_request busy 0%nat aapl_buy (Rejected connection_lost)).
  left. reflexivity.
Defined.

(** ** The start-up and the process *)

(** The client's listener is the only code that ever runs as a listener,
    and it only writes its log line. *)
Lemma listener_only_logs (st : Process) :
  reachable st ->
  forall ev, In ev (events_of Listener (log st)) -> error_line ev.
Proof.
  induction 1 as [|st i Hreach IH]; [intros ev []|].
  pose proof (reachable_orderly st Hreach) as [Hl Hs _ _].
  destruct i as [req | tid s | e].
  - destruct (step_by_actor st (Incoming req)) as (es & Hlog & _).
    rewrite Hlog, events_of_app, events_of_other, app_nil_r by discriminate. exact IH.
  - destruct (same_task tid Listener) eqn:Htid.
    + apply same_task_eq in Htid. subst tid.
      assert (Hnone : take Listener (waiting st) = None).
      { destruct (take Listener (waiting st)) as [[w rest]|] eqn:Ht; [|reflexivity].
        destruct (take_task _ _ _ _ Ht) as [Hw Hin]. exfalso.
        inversion Hs as [ ? ? ? ? Hws | ? ? ? ? ? Hws | ? ? ? ? Hws | ? ? ? ? ? Hws
                          | ? ? ? ? Hil ]; try rewrite Hws in Hin.
        - destruct Hin as [<- | []]. discriminate Hw.
        - destruct Hin.
        - destruct Hin as [<- | []]. discriminate Hw.
        - destruct Hin.
        - exact (Hil _ Hin Hw). }
      unfold step. rewrite Hnone. now destruct (exited st).
    + destruct (step_by_actor st (Settle tid s)) as (es & Hlog & _). simpl in Hlog.
      rewrite Hlog, events_of_app, events_of_other, app_nil_r; [exact IH|].
      intros ->. discriminate Htid.
  - unfold step. destruct (exited st) eqn:Hex; [exact IH|].
    rewrite (emit_error_logs e st Hex Hl). simpl.
    rewrite events_of_app. intros ev Hin. apply in_app_or in Hin as [Hin | [<- | []]].
    + now apply IH.
    + now exists e.
Qed.

(** X6: the process ends only when the start-up fails.  In every
    execution the process has exited with an error exactly when
    [client.connect()] or [app.listen(3000)] was rejected with that error;
    no request, whatever its body and whatever happens to its publish
    call, and no client error event ends it. *)
Theorem only_startup_ends_process (inputs : list Input) (e : JSError) :
  exited (exec inputs) = Some e <->
  In (Main, Settled ClientConnect (Rejected e)) (log (exec inputs)) \/
  In (Main, Settled (AppListen 3000) (Rejected e)) (log (exec inputs)).
Proof.
  rewrite !events_of_In.
  destruct (startup_stage _ (exec_orderly inputs))
    as [Hex _ _ _ _ Hev | e' Hex _ _ _ _ Hev | Hex _ _ _ _ Hev
        | e' Hex _ _ _ _ Hev | Hex _ _ _ _ Hev]; rewrite Hex, Hev; simpl.
  - split; [discriminate|]. intros [[H | []] | [H | []]]; discriminate H.
  - split.
    + intros [= ->]. left. right. now left.
    + intros [[H | [H | []]] | [H | [H | []]]]; try discriminate H. now injection H as ->.
  - split; [discriminate|].
    intros [[H | [H | [H | []]]] | [H | [H | [H | []]]]]; discriminate H.
  - split.
    + intros [= ->]. right. right. right. right. now left.
    + intros [[H | [H | [H | [H | []]]]] | [H | [H | [H | [H | []]]]]];
        try discriminate H. now injection H as ->.
  - split; [discriminate|].
    intros [[H | [H | [H | [H | [H | []]]]]] | [H | [H | [H | [H | [H | []]]]]]];
      discriminate H.
Qed.

Lemma bound_iff_announced (st : Process) :
  Orderly st ->
  (listening st = Some 3000 <-> In running_line (events_of Main (log st))) /\
  (listening st = Some 3000 -> exited st = None).
Proof.
  intros [_ Hs _ _].
  inversion Hs as [ ? Hlis ? ? ? Hev | ? ? Hlis ? ? ? Hev | ? Hlis ? ? ? Hev
                    | ? ? Hlis ? ? ? Hev | Hex Hlis ? ? ? Hev]; rewrite Hlis, Hev; simpl.
  - split; [|discriminate]. split; [discriminate|]. intros [E | []]. discriminate E.
  - split; [|discriminate]. split; [discriminate|]. intros [E | [E | []]]; discriminate E.
  - split; [|discriminate]. split; [discriminate|].
    intros [E | [E | [E | []]]]; discriminate E.
  - split; [|discriminate]. split; [discriminate|].
    intros [E | [E | [E | [E | []]]]]; discriminate E.
  - split; [|intros _; exact Hex]. split; [|reflexivity].
    intros _. right. right. right. right. now left.
Qed.

(** X7: the start-up runs once.  In every execution [client.connect()] is
    called exactly once and [app.listen] at most once, both by the
    start-up and by nothing else; the line "Server is running on port
    3000" is written by the start-up only, and it is in the log exactly
    when the server is bound to port 3000. *)
Theorem startup_runs_once (inputs : list Input) :
  List.length (filter is_connect_call (events_of Main (log (exec inputs)))) = 1%nat /\
  (List.length (filter is_listen_call (events_of Main (log (exec inputs)))) <= 1)%nat /\
  (forall tid ev,
      In (tid, ev) (log (exec inputs)) ->
      is_connect_call ev = true \/ is_listen_call ev = true \/ ev = running_line ->
      tid = Main) /\
  (listening (exec inputs) = Some 3000 <->
   In running_line (events_of Main (log (exec inputs)))).
Proof.
  pose proof (exec_orderly inputs) as [_ Hs Hr _].
  split; [|split; [|split]].
  - inversion Hs as [ ? ? ? ? ? Hev | ? ? ? ? ? ? Hev | ? ? ? ? ? Hev
                      | ? ? ? ? ? ? Hev | ? ? ? ? ? Hev]; now rewrite Hev.
  - inversion Hs as [ ? ? ? ? ? Hev | ? ? ? ? ? ? Hev | ? ? ? ? ? Hev
                      | ? ? ? ? ? ? Hev | ? ? ? ? ? Hev]; rewrite Hev; simpl; lia.
  - intros [| | n] ev Hin Hev; [reflexivity | exfalso | exfalso].
    + apply events_of_In in Hin.
      destruct (listener_only_logs _ (exec_reachable inputs) ev Hin) as [e ->].
      destruct Hev as [H | [H | H]]; discriminate H.
    + apply events_of_In in Hin.
      destruct (Hr n) as [_ He _ | status _ He _ | body _ _ He _ | body _ _ He _
                          | body s _ _ He _];
        rewrite He in Hin; simpl in Hin.
      * destruct Hin.
      * destruct Hin as [<- | []]. destruct Hev as [H | [H | H]]; discriminate H.
      * destruct Hin as [<- | [<- | [<- | []]]];
          destruct Hev as [H | [H | H]]; discriminate H.
      * destruct Hin as [<- | [<- | []]]; destruct Hev as [H | [H | H]]; discriminate H.
      * destruct Hin as [<- | [<- | [<- | Hin]]];
          try (destruct Hev as [H | [H | H]]; discriminate H).
        destruct s; simpl in Hin.
        -- destruct Hin as [<- | []]. destruct Hev as [H | [H | H]]; discriminate H.
        -- destruct Hin as [<- | [<- | []]];
             destruct Hev as [H | [H | H]]; discriminate H.
  - exact (proj1 (bound_iff_announced _ (exec_orderly inputs))).
Qed.

(** X8: requests are handled by a started server only.  In every
    execution in which a request has any event at all (were it only the
    refusal of its body), the client is connected, the server is bound to
    port 3000 and has announced it, and the process is alive. *)
Theorem served_only_when_started (inputs : list Input) (n : nat) :
  events_of (Req n) (log (exec inputs)) <> [] ->
  connected (exec inputs) = true /\
  listening (exec inputs) = Some 3000 /\
  exited (exec inputs) = None /\
  events_of Main (log (exec inputs))
  = [Called ClientConnect; Settled ClientConnect Fulfilled; Called (AppListen 3000);
     Settled (AppListen 3000) Fulfilled; running_line].
Proof.
  intros Hev. pose proof (exec_orderly inputs) as [_ Hs Hr _].
  assert (Hnr : next_request (exec inputs) <> 0%nat).
  { destruct (Hr n) as [_ He _ | ? Hlt _ _ | ? Hlt _ _ _ | ? Hlt _ _ _ | ? ? Hlt _ _ _];
      try lia.
    now destruct Hev. }
  inversion Hs; try contradiction. repeat split; assumption.
Qed.

Lemma served_only_when_started_witness :
  connected (exec busy) = true /\
  listening (exec busy) = Some 3000 /\
  exited (exec busy) = None /\
  events_of Main (log (exec busy))
  = [Called ClientConnect; Settled ClientConnect Fulfilled; Called (AppListen 3000);
     Settled (AppListen 3000) Fulfilled; running_line].
Proof.
  apply (served_only_when_started busy 2%nat). vm_compute. discriminate.
Defined.

(** ** Client errors do not interfere *)

Lemma run_task_without (tid : TaskId) (p : Prog unit) (st st' : Process) :
  without_listener st = without_listener st' ->
  without_listener (run_task tid p st) = without_listener (run_task tid p st').
Proof.
  destruct st as [ex c lis els nr ws lg], st' as [ex' c' lis' els' nr' ws' lg'].
  unfold without_listener. simpl. intros [= <- <- <- <- <- <- Hlg].
  unfold run_task. simpl. destruct ex; simpl; [now rewrite Hlg|].
  destruct (advance p) as [es [|e|o k]]; simpl; now rewrite !filter_app, Hlg.
Qed.

Lemma step_without (st st' : Process) (i : Input) :
  without_listener st = without_listener st' ->
  without_listener (step st i) = without_listener (step st' i).
Proof.
  intros H. pose proof H as H0.
  destruct st as [ex c lis els nr ws lg], st' as [ex' c' lis' els' nr' ws' lg'].
  unfold without_listener in H0. simpl in H0. injection H0 as <- <- <- <- <- <- Hlg.
  unfold step. simpl. destruct ex; [exact H|].
  destruct i as [req | tid s | e].
  - destruct lis; [|exact H]. destruct (handle app req) as [p|]; [|exact H].
    apply run_task_without. unfold without_listener. simpl. now rewrite Hlg.
  - destruct (take tid ws) as [[[[tid' o] k] rest]|]; [|exact H].
    apply run_task_without. destruct s as [|e]; [destruct o|];
      unfold without_listener; simpl; now rewrite !filter_app, Hlg.
  - unfold emit_error. simpl.
    destruct els as [|l ls]; [unfold without_listener; simpl; now rewrite Hlg|].
    assert (Hfold : forall (fs : list (JSError -> Prog unit)) (a b : Process),
               without_listener a = without_listener b ->
               without_listener (fold_left (fun acc f => run_task Listener (f e) acc) fs a)
               = without_listener (fold_left (fun acc f => run_task Listener (f e) acc) fs b)).
    { induction fs as [|f fs IH]; intros a b Hab; simpl; [exact Hab|].
      apply IH. now apply run_task_without. }
    apply Hfold. now apply run_task_without.
Qed.

Lemma client_error_without (st : Process) (e : JSError) :
  Orderly st -> without_listener (step st (ClientError e)) = without_listener st.
Proof.
  intros [Hl _ _ _]. unfold step. destruct (exited st) eqn:Hex; [reflexivity|].
  rewrite (emit_error_logs e st Hex Hl). unfold without_listener. simpl.
  now rewrite filter_app, app_nil_r.
Qed.

Lemma errors_dropped (inputs : list Input) (st st' : Process) :
  Orderly st ->
  without_listener st = without_listener st' ->
  without_listener (fold_left step inputs st)
  = without_listener (fold_left step (filter not_client_error inputs) st').
Proof.
  revert st st'. induction inputs as [|i inputs IH]; intros st st' HO H; simpl; [exact H|].
  destruct i as [req | tid s | e]; simpl.
  - apply IH; [now apply step_orderly | now apply step_without].
  - apply IH; [now apply step_orderly | now apply step_without].
  - apply IH; [now apply step_orderly|]. now rewrite client_error_without.
Qed.

Lemma events_without_listener (tid : TaskId) (l : list (TaskId * Event)) :
  tid <> Listener -> events_of tid (filter not_listener l) = events_of tid l.
Proof.
  intros Ht. unfold events_of. f_equal. induction l as [|[t ev] l IH]; simpl; [reflexivity|].
  unfold not_listener at 1. simpl. destruct (same_task t Listener) eqn:Hl; simpl.
  - apply same_task_eq in Hl. subst t.
    rewrite (same_task_neq Listener tid) by congruence. exact IH.
  - now rewrite IH.
Qed.

(** X9: the client's ['error'] events do not interfere with anything.
    Taking all of them out of an execution changes only the log lines of
    the listener: the process ends up with the same exit status, the same
    connection and port, the same waiting functions, and the same events
    for the start-up and for every request. *)
Theorem client_errors_do_not_interfere (inputs : list Input) :
  without_listener (exec inputs)
  = without_listener (exec (filter not_client_error inputs)) /\
  (forall tid,
      tid <> Listener ->
      events_of tid (log (exec inputs))
      = events_of tid (log (exec (filter not_client_error inputs)))).
Proof.
  assert (H : without_listener (exec inputs)
              = without_listener (exec (filter not_client_error inputs)))
    by (apply errors_dropped; [exact boot_orderly | reflexivity]).
  split; [exact H|]. intros tid Ht.
  rewrite <- (events_without_listener tid (log (exec inputs)) Ht).
  rewrite <- (events_without_listener tid (log (exec (filter _ inputs))) Ht).
  change (events_of tid (log (without_listener (exec inputs)))
          = events_of tid (log (without_listener (exec (filter not_client_error inputs))))).
  now rewrite H.
Qed.

(** Three requests in flight, a client error among them. *)
Example busy_server :
  map (fun n => statuses (events_of (Req n) (log (exec busy)))) [0; 1; 2; 3]%nat
  = [[]; []; [400]; []] /\
  map task_of (waiting (exec busy)) = [Req 0; Req 1] /\
  map (fun n => statuses
                  (events_of (Req n)
                     (log (exec (busy ++ [Settle (Req 1) Fulfilled;
                                          Settle (Req 0) (Rejected connection_lost)])))))
      [0; 1; 2; 3]%nat
  = [[500]; [200]; [400]; []].
Proof. repeat split. Qed.

(** ** What is published, and in which order *)

(** X10: nothing is published that was not logged as received.  In every
    execution each publish call is made by the handler of a request, on
    [trading-signals]; its message is the serialization of a body that
    the same handler has logged as received, and the log line is that
    request's first event, the publish call its second. *)
Theorem published_was_logged
        (inputs : list Input) (tid : TaskId) (channel message : string) :
  In (tid, Called (ClientPublish channel message)) (log (exec inputs)) ->
  exists n body tail,
    tid = Req n /\
    channel = "trading-signals" /\
    message = JSON_stringify body /\
    events_of (Req n) (log (exec inputs))
    = Did (ConsoleLog "Received signal:" (ValueArg body))
      :: Called (ClientPublish channel message) :: tail.
Proof.
  intros Hin. pose proof (exec_orderly inputs) as [_ Hs Hr _].
  apply events_of_In in Hin. destruct tid as [| | n].
  - exfalso.
    inversion Hs as [ ? ? ? ? ? Hev | ? ? ? ? ? ? Hev | ? ? ? ? ? Hev
                      | ? ? ? ? ? ? Hev | ? ? ? ? ? Hev];
      rewrite Hev in Hin; simpl in Hin;
      repeat (destruct Hin as [Hin | Hin]; [discriminate Hin|]); destruct Hin.
  - exfalso.
    destruct (listener_only_logs _ (exec_reachable inputs) _ Hin) as [e He].
    discriminate He.
  - exists n.
    destruct (Hr n) as [_ He _ | status _ He _ | body _ _ He _ | body _ _ He _
                        | body s _ _ He _];
      rewrite He in *; simpl in Hin.
    + destruct Hin.
    + destruct Hin as [Hin | []]. discriminate Hin.
    + destruct Hin as [Hin | [Hin | [Hin | []]]]; discriminate Hin.
    + destruct Hin as [Hin | [Hin | []]]; [discriminate Hin|].
      injection Hin as <- <-. exists body, []. repeat split.
    + destruct Hin as [Hin | [Hin | [Hin | Hin]]]; try discriminate Hin.
      * injection Hin as <- <-. exists body. eexists. repeat split.
      * exfalso. destruct s; simpl in Hin;
          repeat (destruct Hin as [Hin | Hin]; [discriminate Hin|]); destruct Hin.
Qed.

Lemma published_was_logged_witness :
  exists n body tail,
    Req 1 = Req n /\
    "trading-signals" = "trading-signals" /\
    "{}" = JSON_stringify body /\
    events_of (Req n) (log (exec busy))
    = Did (ConsoleLog "Received signal:" (ValueArg body))
      :: Called (ClientPublish "trading-signals" "{}") :: tail.
Proof.
  apply (published_was_logged busy (Req 1) "trading-signals" "{}").
  vm_compute. do 8 right. left. reflexivity.
Defined.

Lemma settle_pending (st : Process) (n : nat) (body : JSValue)
      (rest : list Waiting) (s : Settlement) :
  exited st = None ->
  take (Req n) (waiting st) = Some (publish_wait n body, rest) ->
  step st (Settle (Req n) s)
  = mkProcess None (connected st) (listening st) (error_listeners st)
              (next_request st) rest
              (log st ++ map (pair (Req n)) (Settled (publish_of body) s :: outcome s)).
Proof.
  intros Hex Ht.
  unfold step. rewrite Hex. unfold publish_wait in Ht. rewrite Ht.
  rewrite settle_publish. unfold run_task. simpl. rewrite Hex, after_publish_turn.
  unfold record. simpl. now rewrite Hex, <- app_assoc.
Qed.

Lemma take_commute (a b : TaskId) (ws ra rb : list Waiting) (wa wb : Waiting) :
  a <> b ->
  take a ws = Some (wa, ra) -> take b ws = Some (wb, rb) ->
  exists r, take b ra = Some (wb, r) /\ take a rb = Some (wa, r).
Proof.
  intros Hab. revert wa wb ra rb.
  induction ws as [|x ws IH]; intros wa wb ra rb; simpl; [discriminate|].
  destruct (same_task (fst (fst x)) a) eqn:Ha, (same_task (fst (fst x)) b) eqn:Hb.
  - apply same_task_eq in Ha, Hb. congruence.
  - intros [= <- <-]. destruct (take b ws) as [[f o]|] eqn:Htb; [|discriminate].
    intros [= <- <-]. exists o. split; [first [reflexivity | exact Htb]|]. simpl. now rewrite Ha.
  - destruct (take a ws) as [[f o]|] eqn:Hta; [|discriminate].
    intros [= <- <-] [= <- <-]. exists o. split; [|first [reflexivity | exact Hta]]. simpl. now rewrite Hb.
  - destruct (take a ws) as [[fa oa]|] eqn:Hta; [|discriminate].
    destruct (take b ws) as [[fb ob]|] eqn:Htb; [|discriminate].
    intros [= <- <-] [= <- <-].
    destruct (IH fa fb oa ob eq_refl eq_refl) as (r & Hr1 & Hr2).
    exists (x :: r). simpl. now rewrite Ha, Hb, Hr1, Hr2.
Qed.

Lemma events_swap (tid t1 t2 : TaskId) (x y : list Event) :
  t1 <> t2 ->
  events_of tid (map (pair t1) x) ++ events_of tid (map (pair t2) y)
  = events_of tid (map (pair t2) y) ++ events_of tid (map (pair t1) x).
Proof.
  intros H. destruct (same_task t1 tid) eqn:E.
  - apply same_task_eq in E. subst tid.
    now rewrite (events_of_other t1 t2 y), app_nil_r by congruence.
  - rewrite (events_of_other tid t1 x); [now rewrite app_nil_r|].
    intros ->. now rewrite same_task_refl in E.
Qed.

(** X11: the order in which the broker answers two waiting requests does
    not matter.  In every execution, settling the publish calls of two
    different waiting requests in either order leaves the same functions
    waiting, and the same events for every task: each request gets the
    reply its own settlement decides. *)
Theorem settlements_commute
        (inputs : list Input) (a b : nat) (body_a body_b : JSValue) (s s' : Settlement) :
  a <> b ->
  In (publish_wait a body_a) (waiting (exec inputs)) ->
  In (publish_wait b body_b) (waiting (exec inputs)) ->
  waiting (step (step (exec inputs) (Settle (Req a) s)) (Settle (Req b) s'))
  = waiting (step (step (exec inputs) (Settle (Req b) s')) (Settle (Req a) s)) /\
  (forall tid,
      events_of tid (log (step (step (exec inputs) (Settle (Req a) s)) (Settle (Req b) s')))
      = events_of tid (log (step (step (exec inputs) (Settle (Req b) s')) (Settle (Req a) s)))) /\
  statuses (events_of (Req a)
              (log (step (step (exec inputs) (Settle (Req a) s)) (Settle (Req b) s'))))
  = statuses (outcome s) /\
  statuses (events_of (Req b)
              (log (step (step (exec inputs) (Settle (Req a) s)) (Settle (Req b) s'))))
  = statuses (outcome s').
Proof.
  intros Hab Ha Hb. destruct (exec_orderly inputs) as [Hl Hs Hr Hn].
  assert (Hex : exited (exec inputs) = None).
  { inversion Hs as [ ? ? ? ? Hws | ? ? ? ? ? Hws | ? ? ? ? Hws | ? ? ? ? ? Hws | ];
      try assumption; rewrite Hws in Ha; destruct Ha. }
  destruct (take_found _ _ Hn Ha) as [ra Hta].
  destruct (take_found _ _ Hn Hb) as [rb Htb].
  change (task_of (publish_wait a body_a)) with (Req a) in Hta.
  change (task_of (publish_wait b body_b)) with (Req b) in Htb.
  destruct (take_commute (Req a) (Req b) _ _ _ _ _ ltac:(congruence) Hta Htb)
    as (r & Hr1 & Hr2).
  rewrite (settle_pending _ a body_a ra s Hex Hta).
  rewrite (settle_pending _ b body_b rb s' Hex Htb).
  rewrite (settle_pending (mkProcess None _ _ _ _ ra _) b body_b r s' eq_refl Hr1).
  rewrite (settle_pending (mkProcess None _ _ _ _ rb _) a body_a r s eq_refl Hr2).
  cbn [waiting log]. split; [reflexivity|].
  assert (Hne : Req a <> Req b) by congruence.
  split; [|split].
  - intros tid. rewrite !events_of_app, <- !app_assoc. f_equal.
    now apply events_swap.
  - destruct (Hr a) as [_ _ Hi | ? _ _ Hi | ? _ _ _ Hi | body _ _ He _ | ? ? _ _ _ Hi];
      try (destruct (Hi _ Ha eq_refl)).
    rewrite !events_of_app, He, events_of_own, (events_of_other (Req a) (Req b)) by congruence.
    destruct s; reflexivity.
  - destruct (Hr b) as [_ _ Hi | ? _ _ Hi | ? _ _ _ Hi | body _ _ He _ | ? ? _ _ _ Hi];
      try (destruct (Hi _ Hb eq_refl)).
    rewrite !events_of_app, He, events_of_own, (events_of_other (Req b) (Req a)) by congruence.
    destruct s'; reflexivity.
Qed.

Lemma settlements_commute_witness :
  waiting (step (step (exec busy) (Settle (Req 0) Fulfilled))
                (Settle (Req 1) (Rejected connection_lost)))
  = waiting (step (step (exec busy) (Settle (Req 1) (Rejected connection_lost)))
                  (Settle (Req 0) Fulfilled)) /\
  (forall tid,
      events_of tid (log (step (step (exec busy) (Settle (Req 0) Fulfilled))
                               (Settle (Req 1) (Rejected connection_lost))))
      = events_of tid (log (step (step (exec busy) (Settle (Req 1) (Rejected connection_lost)))
                                 (Settle (Req 0) Fulfilled)))) /\
  statuses (events_of (Req 0)
              (log (step (step (exec busy) (Settle (Req 0) Fulfilled))
                         (Settle (Req 1) (Rejected connection_lost)))))
  = statuses (outcome Fulfilled) /\
  statuses (events_of (Req 1)
              (log (step (step (exec busy) (Settle (Req 0) Fulfilled))
                         (Settle (Req 1) (Rejected connection_lost)))))
  = statuses (outcome (Rejected connection_lost)).
Proof.
  apply (settlements_commute busy 0%nat 1%nat aapl_buy empty_object
           Fulfilled (Rejected connection_lost)).
  - discriminate.
  - left. reflexivity.
  - right. left. reflexivity.
Defined.

Lemma log_grows_only (more : list Input) (st : Process) :
  exists added, log (fold_left step more st) = log st ++ added.
Proof.
  revert st. induction more as [|i more IH]; intros st; simpl.
  - exists []. now rewrite app_nil_r.
  - destruct (IH (step st i)) as [l2 H2].
    destruct (step_by_actor st i) as (es & H1 & _).
    exists (map (pair (actor st i)) es ++ l2). now rewrite H2, H1, app_assoc.
Qed.

(** X12: once the server is up, nothing takes it down.  In every
    execution in which the server is bound to port 3000, it stays bound
    and the process stays alive whatever comes next: requests with any
    body, publish calls that fail, client errors. *)
Theorem server_stays_up (inputs more : list Input) :
  listening (exec inputs) = Some 3000 ->
  listening (exec (inputs ++ more)) = Some 3000 /\
  exited (exec (inputs ++ more)) = None.
Proof.
  intros Hup.
  assert (H : listening (exec (inputs ++ more)) = Some 3000).
  { apply (proj2 (proj1 (bound_iff_announced _ (exec_orderly (inputs ++ more))))).
    apply (proj1 (proj1 (bound_iff_announced _ (exec_orderly inputs)))) in Hup.
    unfold exec at 1. rewrite fold_left_app. fold (exec inputs).
    destruct (log_grows_only more (exec inputs)) as [added ->].
    rewrite events_of_app. apply in_or_app. now left. }
  split; [exact H|].
  exact (proj2 (bound_iff_announced _ (exec_orderly (inputs ++ more))) H).
Qed.

Lemma server_stays_up_witness :
  listening (exec ([Settle Main Fulfilled; Settle Main Fulfilled]
                     ++ [Incoming truncated_request; Incoming aapl_request;
                         ClientError connection_lost;
                         Settle (Req 1) (Rejected connection_lost)]))
  = Some 3000 /\
  exited (exec ([Settle Main Fulfilled; Settle Main Fulfilled]
                  ++ [Incoming truncated_request; Incoming aapl_request;
                      ClientError connection_lost;
                      Settle (Req 1) (Rejected connection_lost)]))
  = None.
Proof.
  apply (server_stays_up [Settle Main Fulfilled; Settle Main Fulfilled]).
  reflexivity.
Defined.

(** ** The start-up and the interface *)

Lemma log_starts_with_connect (inputs : list Input) :
  exists rest, log (exec inputs) = (Main, Called ClientConnect) :: rest.
Proof.
  destruct (log_grows_only inputs boot) as [added H].
  exists added. exact H.
Qed.

Lemma stays_bound (inputs more : list Input) :
  listening (exec inputs) = Some 3000 ->
  listening (exec (inputs ++ more)) = Some 3000.
Proof.
  intros Hup.
  apply (proj2 (proj1 (bound_iff_announced _ (exec_orderly (inputs ++ more))))).
  apply (proj1 (proj1 (bound_iff_announced _ (exec_orderly inputs)))) in Hup.
  unfold exec at 1. rewrite fold_left_app. fold (exec inputs).
  destruct (log_grows_only more (exec inputs)) as [added ->].
  rewrite events_of_app. apply in_or_app. now left.
Qed.

Lemma only_client_errors (attempts : nat) :
  filter not_client_error (unreachable_broker attempts) = [].
Proof. induction attempts as [|k IH]; [reflexivity | exact IH]. Qed.

Lemma unreachable_broker_state (attempts : nat) :
  without_listener (exec (unreachable_broker attempts)) = without_listener boot.
Proof.
  unfold exec.
  rewrite (errors_dropped (unreachable_broker attempts) boot boot boot_orderly eq_refl).
  now rewrite only_client_errors.
Qed.

(** C3, as stated, fails in its second half: when the broker cannot be
    reached, the client keeps trying and reports each failed attempt by
    an ['error'] event, which the listener logs; [client.connect()] is
    not rejected but stays pending, so that the process does not start
    serving, and does not fail either: it stays alive, waiting. *)
Lemma unreachable_broker_does_not_fail :
  (exited (exec (unreachable_broker 2)) = None /\
   listening (exec (unreachable_broker 2)) = None /\
   log (exec (unreachable_broker 2))
   = [(Main, Called ClientConnect);
      (Listener, Did (ConsoleLog "Redis Client Error" (ErrorArg connection_lost)));
      (Listener, Did (ConsoleLog "Redis Client Error" (ErrorArg connection_lost)))]) /\
  (forall attempts,
      exited (exec (unreachable_broker attempts)) = None /\
      listening (exec (unreachable_broker attempts)) = None /\
      connected (exec (unreachable_broker attempts)) = false /\
      waiting (exec (unreachable_broker attempts)) = [(Main, ClientConnect, after_connect)]).
Proof.
  split; [repeat split|].
  intros attempts. pose proof (unreachable_broker_state attempts) as H.
  repeat split.
  - exact (f_equal exited H).
  - exact (f_equal listening H).
  - exact (f_equal connected H).
  - exact (f_equal waiting H).
Qed.

(** C3, amended: in every execution the start-up calls [client.connect()]
    first; the server accepts connections only once that call has been
    fulfilled, every [app.listen] call in the log comes after the
    fulfilment, and the fulfilment is followed by the call of
    [app.listen(3000)].  When the connection attempt is rejected, the
    process dies of that error without ever calling [app.listen], it
    accepts no connection, and nothing moves it again.  As long as the
    attempt is neither fulfilled nor rejected, the process is alive and
    accepts no connection. *)
Theorem startup_connects_then_listens (inputs : list Input) :
  (exists rest, log (exec inputs) = (Main, Called ClientConnect) :: rest) /\
  (forall port, listening (exec inputs) = Some port -> connected (exec inputs) = true) /\
  (forall pre post tid port,
      log (exec inputs) = pre ++ (tid, Called (AppListen port)) :: post ->
      exists tid', In (tid', Settled ClientConnect Fulfilled) pre) /\
  (In (Main, Settled ClientConnect Fulfilled) (log (exec inputs)) ->
   In (Main, Called (AppListen 3000)) (log (exec inputs))) /\
  (forall e,
      In (Main, Settled ClientConnect (Rejected e)) (log (exec inputs)) ->
      exited (exec inputs) = Some e /\
      listening (exec inputs) = None /\
      (forall tid port, ~ In (tid, Called (AppListen port)) (log (exec inputs))) /\
      (forall i, step (exec inputs) i = exec inputs)) /\
  ((forall s, ~ In (Main, Settled ClientConnect s) (log (exec inputs))) ->
   exited (exec inputs) = None /\
   listening (exec inputs) = None /\
   waiting (exec inputs) = [(Main, ClientConnect, after_connect)]).
Proof.
  destruct (exec_inv inputs) as [Hl Hc Ho Hf Hp].
  split; [apply log_starts_with_connect|].
  split; [|split; [|split; [|split]]].
  - intros port Hport.
    inversion Hp as [_ _ Hlis | e' _ Hlis | Hcon _ _ _]; congruence.
  - intros pre post tid port Hlog. rewrite Hlog in Ho.
    apply ordered_split in Ho; [|reflexivity]. simpl in Ho.
    apply existsb_exists in Ho as [[tid' ev] [Hin Hev]].
    exists tid'. unfold connect_fulfilled in Hev. simpl in Hev.
    destruct ev as [| |o s]; try discriminate.
    destruct o; try discriminate. destruct s; try discriminate. exact Hin.
  - rewrite !events_of_In.
    destruct (startup_stage _ (exec_orderly inputs))
      as [_ _ _ _ _ Hev | e' _ _ _ _ _ Hev | _ _ _ _ _ Hev
          | e' _ _ _ _ _ Hev | _ _ _ _ _ Hev]; rewrite Hev; simpl;
      intros H; repeat (destruct H as [H | H]; [try discriminate H|]);
      try (destruct H); tauto.
  - intros e H. repeat split.
    + inversion Hp as [_ _ _ _ _ Hrej | e' Hex _ _ Hsame | _ Hrej _ _].
      * now apply (existsb_none _ _ _ Hrej) in H.
      * now rewrite (Hsame e H).
      * now apply (existsb_none _ _ _ Hrej) in H.
    + inversion Hp as [_ _ _ _ _ Hrej | e' _ Hlis _ _ | _ Hrej _ _].
      * now apply (existsb_none _ _ _ Hrej) in H.
      * exact Hlis.
      * now apply (existsb_none _ _ _ Hrej) in H.
    + intros tid port Hin.
      inversion Hp as [_ _ _ _ _ Hrej | e' _ _ Hnol _ | _ Hrej _ _].
      * now apply (existsb_none _ _ _ Hrej) in H.
      * now apply (existsb_none _ _ _ Hnol) in Hin.
      * now apply (existsb_none _ _ _ Hrej) in H.
    + intros i.
      inversion Hp as [_ _ _ _ _ Hrej | e' Hex _ _ _ | _ Hrej _ _].
      * now apply (existsb_none _ _ _ Hrej) in H.
      * unfold step. now rewrite Hex.
      * now apply (existsb_none _ _ _ Hrej) in H.
  - intros Hnone.
    destruct (startup_stage _ (exec_orderly inputs))
      as [Hex Hlis _ _ Hws Hev | e' _ _ _ _ _ Hev | _ _ _ _ _ Hev
          | e' _ _ _ _ _ Hev | _ _ _ _ _ Hev].
    + repeat split; assumption.
    + destruct (Hnone (Rejected e')). apply events_of_In. rewrite Hev. right. now left.
    + destruct (Hnone Fulfilled). apply events_of_In. rewrite Hev. right. now left.
    + destruct (Hnone Fulfilled). apply events_of_In. rewrite Hev. right. now left.
    + destruct (Hnone Fulfilled). apply events_of_In. rewrite Hev. right. now left.
Qed.

(** Which requests the router gives to the handler. *)
Lemma routing (req : Request) (body : JSValue) :
  body_parser app req = Next body ->
  handle app req
  = if ((req_method req =? "POST") &&
        ((lower (req_path req) =? "/signal") || (lower (req_path req) =? "/signal/")))%string
    then Some (signal_handler body) else None.
Proof.
  intros Hb. unfold handle. rewrite Hb. simpl. unfold matches, path_matches. simpl.
  destruct (_ && _); reflexivity.
Qed.

(** C8: the interface constants are fixed.  The application has exactly
    one route, [POST /signal]: a request whose body the parser accepts
    reaches the handler when its method is POST and its path is /signal
    (in any case, with or without a trailing slash), and reaches nothing
    otherwise.  Whatever requests, settlements and errors the process
    meets: the start-up calls [app.listen] with 3000 once the client is
    connected, every [app.listen] call is for port 3000, the fulfilment of
    that call binds the server to port 3000, where it stays, and every
    publish call is on [trading-signals].  None of these values depends on
    an input of the process. *)
Theorem interface_is_fixed (inputs : list Input) :
  map (fun rt => (route_method rt, route_path rt)) (routes app) = [("POST", "/signal")] /\
  (forall req body,
      body_parser app req = Next body ->
      handle app req
      = if ((req_method req =? "POST") &&
            ((lower (req_path req) =? "/signal") || (lower (req_path req) =? "/signal/")))%string
        then Some (signal_handler body) else None) /\
  (handle app (mkRequest "POST" "/Signal/" false false (Text "" None))
   = Some (signal_handler empty_object) /\
   handle app (mkRequest "GET" "/signal" false false (Text "" None)) = None /\
   handle app (mkRequest "POST" "/signals" false false (Text "" None)) = None /\
   handle app (mkRequest "POST" "/" false false (Text "" None)) = None) /\
  (forall tid port, In (tid, Called (AppListen port)) (log (exec inputs)) -> port = 3000) /\
  (forall tid channel message,
      In (tid, Called (ClientPublish channel message)) (log (exec inputs)) ->
      channel = "trading-signals"%string) /\
  (forall port, listening (exec inputs) = Some port -> port = 3000) /\
  (connected (exec inputs) = true ->
   In (Main, Called (AppListen 3000)) (log (exec inputs))) /\
  (In (Main, Settled (AppListen 3000) Fulfilled) (log (exec inputs)) ->
   listening (exec inputs) = Some 3000) /\
  (listening (exec started) = Some 3000 /\
   listening (exec (started ++ inputs)) = Some 3000).
Proof.
  destruct (exec_inv inputs) as [Hl Hc Ho Hf Hp].
  split; [reflexivity|]. split; [exact routing|]. split; [repeat split|].
  split; [|split; [|split; [|split; [|split]]]].
  - intros tid port Hin.
    exact (proj1 (Forall_forall _ _) Hf _ Hin).
  - intros tid channel message Hin.
    exact (proj1 (Forall_forall _ _) Hf _ Hin).
  - intros port Hport.
    inversion Hp as [_ _ Hlis | e' _ Hlis | _ _ _ H3000]; try congruence.
    now apply H3000.
  - rewrite events_of_In.
    destruct (startup_stage _ (exec_orderly inputs))
      as [_ _ Hcon _ _ Hev | e' _ _ Hcon _ _ Hev | _ _ _ _ _ Hev
          | e' _ _ _ _ _ Hev | _ _ _ _ _ Hev]; rewrite Hev; simpl;
      try (rewrite Hcon; discriminate); tauto.
  - rewrite events_of_In.
    destruct (startup_stage _ (exec_orderly inputs))
      as [_ _ _ _ _ Hev | e' _ _ _ _ _ Hev | _ _ _ _ _ Hev
          | e' _ _ _ _ _ Hev | _ Hlis _ _ _ Hev]; rewrite Hev; simpl;
      try exact (fun _ => Hlis);
      intros H; repeat (destruct H as [H | H]; [discriminate H|]); destruct H.
  - split; [reflexivity|]. now apply stays_bound.
Qed.

(** ** Calls that stay pending *)

(** A handler that waits for its publish call keeps waiting, and its
    request has no further event, as long as that call does not settle. *)
Lemma stays_waiting (n : nat) (body : JSValue) (more : list Input) (st : Process) :
  (n < next_request st)%nat ->
  events_of (Req n) (log st) = received body ->
  In (publish_wait n body) (waiting st) ->
  forallb (leaves_waiting n) more = true ->
  events_of (Req n) (log (fold_left step more st)) = received body /\
  In (publish_wait n body) (waiting (fold_left step more st)).
Proof.
  revert st. induction more as [|i more IH]; intros st Hn Hev Hw Hall; simpl;
    [now split|].
  simpl in Hall. apply andb_prop in Hall as [Hi Hall].
  assert (Ha : actor st i <> Req n).
  { destruct i as [req | tid s | e]; simpl in *.
    - intros [= H]. lia.
    - intros ->. now rewrite same_task_refl in Hi.
    - discriminate. }
  destruct (step_by_actor st i) as (es & Hlog & Hnr & Hws).
  apply IH; [lia | | | exact Hall].
  - rewrite Hlog, events_of_app, events_of_other by exact Ha.
    now rewrite app_nil_r.
  - apply Hws; [|exact Hw]. intros H. apply Ha. rewrite <- H. reflexivity.
Qed.

(** C9, as stated, fails: a request reaches the handler, its publish call
    stays pending (the client holds the command while it is
    disconnected), and the request has no response, whatever else
    happens to the process, as long as that call does not settle. *)
Lemma pending_publish_no_response :
  handle app aapl_request = Some (signal_handler aapl_buy) /\
  completion broker_silent (signal_handler aapl_buy)
  = Pending (ClientPublish "trading-signals" (JSON_stringify aapl_buy)) /\
  statuses (trace broker_silent (signal_handler aapl_buy)) = [] /\
  sent (trace broker_silent (signal_handler aapl_buy)) = [] /\
  (forall more,
      forallb (leaves_waiting 0) more = true ->
      statuses (events_of (Req 0)
                  (log (exec (started ++ Incoming aapl_request :: more)))) = []).
Proof.
  repeat split.
  intros more Hall.
  assert (E : exec (started ++ Incoming aapl_request :: more)
              = fold_left step more (step (exec started) (Incoming aapl_request)))
    by (unfold exec; now rewrite fold_left_app).
  rewrite E.
  destruct (stays_waiting 0 aapl_buy more (step (exec started) (Incoming aapl_request)))
    as [Hev _]; [vm_compute; lia | reflexivity | left; reflexivity | exact Hall |].
  rewrite Hev. reflexivity.
Qed.
